(** * The cron controller: one reconciliation cycle, and its properties

    A shallow embedding of the Cron reconciler (package [controller],
    [CronReconciler]) and of the API types it works on (package
    [v1alpha1]).  The reconciler is written against three collaborators: the
    resource store ([client.Client] / [client.Reader]), the event recorder
    and the clock.  They are modelled by an explicit [World]; every method
    of the reconciler is a computation in a state-and-error monad over the
    world and the in-memory [Cron] object all methods mutate through one
    pointer. *)

From stdpp Require Import gmap strings list fin_maps pretty sorting.

Open Scope Z_scope.

(** ** API types (package v1alpha1) *)

(** [metav1.Time]: an instant, in nanoseconds since the epoch.  A nil
    [*metav1.Time] is [None]. *)
Abbreviation Time := Z (only parsing).
Abbreviation Duration := Z (only parsing).

(** [time.Time.Unix()]: whole seconds since the epoch.  The method is one of
    the embedded [time.Time] value: calling it through a nil [*metav1.Time]
    is a nil-pointer panic, which the callers below write out. *)
Definition Unix (t : Time) : Z := t `div` 1000000000.

(** [Equal] on [metav1.Time] pointers: two nil times are equal, nil differs from any
    instant. *)
Definition timeEqual (t u : option Time) : bool :=
  match t, u with
  | None, None => true
  | Some a, Some b => a =? b
  | _, _ => false
  end.

(** [Before] on [metav1.Time] pointers: false as soon as one side is nil. *)
Definition timeBefore (t u : option Time) : bool :=
  match t, u with
  | Some a, Some b => a <? b
  | _, _ => false
  end.

Inductive ConcurrencyPolicy :=
| ConcurrentPolicyAllow
| ConcurrentPolicyForbid
| ConcurrentPolicyReplace.

Inductive JobConditionType :=
| JobCreated
| JobRunning
| JobRestarting
| JobSucceeded
| JobFailed.

(** [JobCondition], reduced to the two fields the controller reads. *)
Record JobCondition := mkCondition {
  condType : JobConditionType;
  condLastTransitionTime : Time
}.

(** [corev1.ObjectReference] *)
Record ObjectReference := mkRef {
  refKind : string;
  refNamespace : string;
  refName : string;
  refUID : string;
  refAPIVersion : string
}.

(** [corev1.TypedLocalObjectReference]; [APIGroup] is a [*string]. *)
Record TypedLocalObjectReference := mkTyped {
  APIGroup : option string;
  Kind : string;
  Name : string
}.

(** [CronHistory].  [hStatus] is [None] for the empty condition type. *)
Record CronHistory := mkHistory {
  hUID : string;
  hObject : TypedLocalObjectReference;
  hStatus : option JobConditionType;
  hCreated : option Time;
  hFinished : option Time
}.

(** A workload object as the controller sees it through [client.Object]:
    type and object metadata, the controller owner reference, and the
    reported conditions. *)
Record Workload := mkWorkload {
  wKind : string;
  wAPIVersion : string;
  wName : string;
  wGenerateName : string;
  wNamespace : string;
  wUID : string;
  wLabels : gmap string string;
  wCreationTimestamp : Time;
  wController : option string;
  wConditions : list JobCondition
}.

(** [CronTemplateSpec].  [tplObject] is the object the scheme builds from the
    template's kind and raw workload; [None] when the scheme does not know
    the kind or the raw bytes do not decode. *)
Record CronTemplateSpec := mkTemplate {
  tplAPIVersion : string;
  tplKind : string;
  tplObject : option Workload
}.

(** [CronSpec].  [HistoryLimit] is a [*int32] with no minimum: it may be
    negative; absent means unbounded.  It is only compared with a length and
    subtracted from it, so it is kept as an integer without wrap-around. *)
Record CronSpec := mkSpec {
  Schedule : string;
  Template : CronTemplateSpec;
  ConcurrencyPolicy_ : ConcurrencyPolicy;
  Suspend : option bool;
  Deadline : option Time;
  HistoryLimit : option Z
}.

Record CronStatus := mkStatus {
  Active : list ObjectReference;
  History : list CronHistory;
  LastScheduleTime : option Time
}.

Record Cron := mkCron {
  cronName : string;
  cronNamespace : string;
  cronUID : string;
  CreationTimestamp : Time;
  DeletionTimestamp : option Time;
  Spec : CronSpec;
  Status : CronStatus
}.

#[global] Instance ConcurrencyPolicy_eq_dec : EqDecision ConcurrencyPolicy.
Proof. solve_decision. Defined.
#[global] Instance JobConditionType_eq_dec : EqDecision JobConditionType.
Proof. solve_decision. Defined.

(** Field updates through the [cron] pointer. *)
Definition setActive (a : list ObjectReference) (c : Cron) : Cron :=
  mkCron (cronName c) (cronNamespace c) (cronUID c) (CreationTimestamp c)
    (DeletionTimestamp c) (Spec c)
    (mkStatus a (History (Status c)) (LastScheduleTime (Status c))).

Definition setHistory (h : list CronHistory) (c : Cron) : Cron :=
  mkCron (cronName c) (cronNamespace c) (cronUID c) (CreationTimestamp c)
    (DeletionTimestamp c) (Spec c)
    (mkStatus (Active (Status c)) h (LastScheduleTime (Status c))).

Definition setLastScheduleTime (t : option Time) (c : Cron) : Cron :=
  mkCron (cronName c) (cronNamespace c) (cronUID c) (CreationTimestamp c)
    (DeletionTimestamp c) (Spec c)
    (mkStatus (Active (Status c)) (History (Status c)) t).

Definition setStatus (s : CronStatus) (c : Cron) : Cron :=
  mkCron (cronName c) (cronNamespace c) (cronUID c) (CreationTimestamp c)
    (DeletionTimestamp c) (Spec c) s.

Definition setConcurrencyPolicy (p : ConcurrencyPolicy) (c : Cron) : Cron :=
  mkCron (cronName c) (cronNamespace c) (cronUID c) (CreationTimestamp c)
    (DeletionTimestamp c)
    (mkSpec (Schedule (Spec c)) (Template (Spec c)) p (Suspend (Spec c))
       (Deadline (Spec c)) (HistoryLimit (Spec c)))
    (Status c).

(** ** The collaborators: store, recorder, clock *)

(** Errors.  [ErrNotFound] and [ErrAlreadyExists] are the two API errors the
    controller tells apart ([apierrors.IsNotFound], [IsAlreadyExists]);
    [ErrOther] stands for every other transient store error (conflict,
    timeout, unavailable), [ErrInvalid] for an object the store refuses.
    The rest are built by the controller itself. *)
Inductive Error :=
| ErrNotFound
| ErrAlreadyExists
| ErrOther (code : nat)
| ErrInvalid
| ErrTemplate
| ErrOwner
| ErrInit (cause : Error).

Definition IsNotFound (e : Error) : bool :=
  match e with ErrNotFound => true | _ => false end.

Definition IsAlreadyExists (e : Error) : bool :=
  match e with ErrAlreadyExists => true | _ => false end.

Inductive EventType := EventTypeNormal | EventTypeWarning.

(** A recorded event: severity, reason, and the argument of its message. *)
Record Event := mkEvent {
  evType : EventType;
  evReason : string;
  evNote : string
}.

(** A namespaced name. *)
Abbreviation Key := (string * string)%type (only parsing).

(** The calls the controller makes to the store.  [OpGet] goes through the
    cached client, [OpRead] through the direct reader. *)
Inductive Op :=
| OpGetCron
| OpGet (key : Key)
| OpRead (key : Key)
| OpCreate (key : Key)
| OpDelete (key : Key)
| OpUpdateStatus.

(** The world outside the controller: the persisted cron resource, the
    workload objects by namespaced name, the recorded events, the store's
    UID counter, the clock, and the store errors in force ([w_fault op] is
    the error the store answers [op] with, if any). *)
Record World := mkWorld {
  w_cron : option Cron;
  w_workloads : gmap (string * string) Workload;
  w_events : list Event;
  w_nextUID : N;
  w_now : Time;
  w_fault : Op → option Error
}.

(** The namespaced name of a cron and of a workload. *)
Definition cronKey (c : Cron) : string * string := (cronNamespace c, cronName c).
Definition workloadKey (o : Workload) : string * string := (wNamespace o, wName o).

(** [client.Get] of the cron resource. *)
Definition apiGetCron (key : string * string) (w : World) : Error + Cron :=
  match w_fault w OpGetCron with
  | Some e => inl e
  | None =>
      match w_cron w with
      | Some c => if decide (cronKey c = key) then inr c else inl ErrNotFound
      | None => inl ErrNotFound
      end
  end.

(** [client.Get] of a workload, through the cached client.  The cache is
    taken to be up to date: the cached client and the direct reader see the
    same objects, and differ only in the errors they may be answered with. *)
Definition apiGet (key : string * string) (w : World) : Error + Workload :=
  match w_fault w (OpGet key) with
  | Some e => inl e
  | None =>
      match w_workloads w !! key with
      | Some o => inr o
      | None => inl ErrNotFound
      end
  end.

(** [reader.Get] of a workload, straight from the store. *)
Definition apiRead (key : string * string) (w : World) : Error + Workload :=
  match w_fault w (OpRead key) with
  | Some e => inl e
  | None =>
      match w_workloads w !! key with
      | Some o => inr o
      | None => inl ErrNotFound
      end
  end.

(** The name the store gives a created object: its own name, or, when that
    is empty, its generateName followed by a suffix the store picks (drawn
    here from the UID counter); an object with neither is refused. *)
Definition storedName (o : Workload) (w : World) : option string :=
  if decide (wName o = "") then
    if decide (wGenerateName o = "") then None
    else Some (wGenerateName o +:+ pretty (w_nextUID w))
  else Some (wName o).

(** Create: refused when the name is taken; otherwise the store assigns the
    UID and the creation time and hands the stored object back. *)
Definition apiCreate (o : Workload) (w : World) : (Error + Workload) * World :=
  match w_fault w (OpCreate (workloadKey o)) with
  | Some e => (inl e, w)
  | None =>
      match storedName o w with
      | None => (inl ErrInvalid, w)
      | Some name =>
          match w_workloads w !! (wNamespace o, name) with
          | Some _ => (inl ErrAlreadyExists, w)
          | None =>
              let o' := mkWorkload (wKind o) (wAPIVersion o) name
                          (wGenerateName o) (wNamespace o)
                          ("uid-" +:+ pretty (w_nextUID w)) (wLabels o)
                          (w_now w) (wController o) (wConditions o) in
              (inr o',
               mkWorld (w_cron w) (<[(wNamespace o, name) := o']> (w_workloads w))
                 (w_events w) (N.succ (w_nextUID w)) (w_now w) (w_fault w))
          end
      end
  end.

(** [client.Delete]: the object leaves the store at once. *)
Definition apiDelete (o : Workload) (w : World) : option Error * World :=
  match w_fault w (OpDelete (workloadKey o)) with
  | Some e => (Some e, w)
  | None =>
      match w_workloads w !! workloadKey o with
      | None => (Some ErrNotFound, w)
      | Some _ =>
          (None,
           mkWorld (w_cron w) (delete (workloadKey o) (w_workloads w))
             (w_events w) (w_nextUID w) (w_now w) (w_fault w))
      end
  end.

(** [Status().Update]: only the status sub-document is written; the caller's
    object is refreshed from the stored one. *)
Definition apiUpdateStatus (c : Cron) (w : World) : (Error + Cron) * World :=
  match w_fault w OpUpdateStatus with
  | Some e => (inl e, w)
  | None =>
      match w_cron w with
      | Some stored =>
          if decide (cronKey stored = cronKey c) then
            let c' := setStatus (Status c) stored in
            (inr c',
             mkWorld (Some c') (w_workloads w) (w_events w) (w_nextUID w)
               (w_now w) (w_fault w))
          else (inl ErrNotFound, w)
      | None => (inl ErrNotFound, w)
      end
  end.

(** The recorder appends the event. *)
Definition record (e : Event) (w : World) : World :=
  mkWorld (w_cron w) (w_workloads w) (w_events w ++ [e]) (w_nextUID w)
    (w_now w) (w_fault w).

(** ** The monad of the reconciler's methods *)

(** The state a method runs in: the world, and the object behind the
    [cron] pointer that [Reconcile] hands to every method. *)
Record St := mkSt {
  world : World;
  self : Cron
}.

(** A method returns normally, returns an error, or panics (nil
    dereference).  The state is kept in all three cases: what was written
    through the pointer or sent to the store before the failure stays. *)
Inductive result (A : Type) :=
| Ok (a : A)
| Err (e : Error)
| Panic.
Arguments Ok {A} a.
Arguments Err {A} e.
Arguments Panic {A}.

Definition M (A : Type) : Type := St → result A * St.

Definition ret {A} (a : A) : M A := λ s, (Ok a, s).

Definition bind {A B} (m : M A) (k : A → M B) : M B :=
  λ s, match m s with
       | (Ok a, s') => k a s'
       | (Err e, s') => (Err e, s')
       | (Panic, s') => (Panic, s')
       end.

Definition fail {A} (e : Error) : M A := λ s, (Err e, s).
Definition panic {A} : M A := λ s, (Panic, s).

Declare Scope cron_scope.
Delimit Scope cron_scope with cron.
Notation "x <- m ;; k" := (bind m (λ x, k))
  (at level 100, m at next level, right associativity) : cron_scope.
Notation "m ;;; k" := (bind m (λ _, k))
  (at level 100, right associativity) : cron_scope.
Open Scope cron_scope.

Definition getSelf : M Cron := λ s, (Ok (self s), s).
Definition modifySelf (f : Cron → Cron) : M unit :=
  λ s, (Ok tt, mkSt (world s) (f (self s))).
Definition putSelf (c : Cron) : M unit := modifySelf (λ _, c).
Definition readWorld {A} (f : World → A) : M A := λ s, (Ok (f (world s)), s).
Definition stepWorld {A} (f : World → A * World) : M A :=
  λ s, let '(a, w) := f (world s) in (Ok a, mkSt w (self s)).

(** [r.recorder.Event] / [Eventf] *)
Definition Eventf (t : EventType) (reason note : string) : M unit :=
  λ s, (Ok tt, mkSt (record (mkEvent t reason note) (world s)) (self s)).

(** [fmt.Errorf("...: %v", err)] around a failing call. *)
Definition mapErr {A} (f : Error → Error) (m : M A) : M A :=
  λ s, match m s with
       | (Err e, s') => (Err (f e), s')
       | r => r
       end.

(** [r.client.Status().Update(ctx, cron)] *)
Definition statusUpdate : M unit :=
  cron <- getSelf ;;
  r <- stepWorld (apiUpdateStatus cron) ;;
  match r with
  | inl e => fail e
  | inr c' => putSelf c'
  end.

(** ** Helpers of the controller package *)

(** The helpers below are called by the reconciler and live in the
    controller package next to it. *)

(** Modelled from the spec: [inActiveList], whose body is not part of the
    reconciler file.  The active set is keyed by unique id, so a workload is
    tracked when a recorded reference carries its UID. *)
Definition inActiveList (active : list ObjectReference) (w : Workload) : bool :=
  existsb (λ r, String.eqb (refUID r) (wUID w)) active.

(** Modelled from the spec: [deleteFromActiveList], whose body is not part
    of the reconciler file.  It rebuilds the active list without the
    references that carry the UID; a loop that ranges over the old list keeps
    seeing the old elements. *)
Definition deleteFromActiveList (uid : string) (c : Cron) : Cron :=
  setActive (filter (λ r, refUID r ≠ uid) (Active (Status c))) c.

(** Modelled from the spec: the terminal outcomes of the lifecycle
    vocabulary, part of [IsWorkloadFinished]. *)
Definition isTerminal (t : JobConditionType) : bool :=
  match t with
  | JobSucceeded | JobFailed => true
  | _ => false
  end.

(** Modelled from the spec: [IsWorkloadFinished], whose body is not part of
    the reconciler file.  The classifier maps the most advanced reported
    condition (the last one of the list) to the lifecycle vocabulary; only
    Succeeded and Failed are terminal, and no condition at all is
    unfinished. *)
Definition IsWorkloadFinished (w : Workload) : option JobConditionType * bool :=
  match last (wConditions w) with
  | Some c => (Some (condType c), isTerminal (condType c))
  | None => (None, false)
  end.

(** Modelled from the spec: [workloadToHistory], whose body is not part of
    the reconciler file.  A history entry carries the unique id, the typed
    reference (API group, kind, name), the lifecycle status, the created
    time, and a finished time once the workload is terminal; the finished
    time is read off the terminal condition. *)
Definition workloadToHistory (w : Workload) (apiGroup kind : string) : CronHistory :=
  mkHistory (wUID w) (mkTyped (Some apiGroup) kind (wName w))
    (fst (IsWorkloadFinished w))
    (Some (wCreationTimestamp w))
    (match last (wConditions w) with
     | Some c => if isTerminal (condType c)
                 then Some (condLastTransitionTime c) else None
     | None => None
     end).

(** Modelled from the spec: [getDefaultJobName], whose body is not part of
    the reconciler file.  The name is synthesized from the resource name and
    the firing timestamp. *)
Definition getDefaultJobName (c : Cron) (scheduleTime : Time) : string :=
  cronName c +:+ "-" +:+ pretty (Unix scheduleTime).

(** Modelled from the spec: [newEmptyWorkload], whose body is not part of
    the reconciler file.  It builds the object of the template's kind, and
    fails when the kind cannot be built. *)
Definition newEmptyWorkload (c : Cron) : Error + Workload :=
  match tplObject (Template (Spec c)) with
  | Some o => inr o
  | None => inl ErrTemplate
  end.

(** [cron.Schedule] of the cron library: the one method [Next], the first
    occurrence strictly after an instant. *)
Abbreviation CronSchedule := (Z → Z) (only parsing).

(** Modelled from the spec: [nextScheduledTimeDuration], whose body is not
    part of the reconciler file: the next occurrence after now, minus now. *)
Definition nextScheduledTimeDuration (schedule : CronSchedule) (now : Time)
  : option Duration :=
  Some (schedule now - now).

(** Modelled from the spec: the walk of the schedule evaluator, part of
    [getNextScheduleTime].  From [t], the candidate occurrence, follow [Next]
    while the occurrence is not after now, remembering the most recent one.
    [fuel] bounds the number of occurrences met; [None] reports that the
    bound was exceeded. *)
Fixpoint walkSchedule (schedule : CronSchedule) (now : Time) (fuel : nat)
    (t : Time) (mostRecent : option Time) : option (option Time) :=
  if now <? t then Some mostRecent
  else match fuel with
       | O => None
       | S fuel' => walkSchedule schedule now fuel' (schedule t) (Some t)
       end.

(** Modelled from the spec: the anchor of the walk, part of
    [getNextScheduleTime]: the last-fired time if present, else the
    resource's creation time. *)
Definition earliestTime (c : Cron) : Time :=
  match LastScheduleTime (Status c) with
  | Some t => t
  | None => CreationTimestamp c
  end.

(** Modelled from the spec: [getNextScheduleTime], whose body is not part of
    the reconciler file.  The walk starts at the first occurrence after the
    anchor; the backlog collapses to the most recent occurrence; more than
    100 missed occurrences are signalled and treated as none due for this
    cycle. *)
Definition getNextScheduleTime (now : Time) (schedule : CronSchedule)
  : M (Error + option Time) :=
  cron <- getSelf ;;
  match walkSchedule schedule now 100 (schedule (earliestTime cron)) None with
  | Some t => ret (inr t)
  | None =>
      Eventf EventTypeWarning "TooManyMissedTimes" (Schedule (Spec cron)) ;;;
      ret (inr None)
  end.

(** [reference.GetReference] on a stored object; it does not fail on an
    object the scheme has built. *)
Definition GetReference (o : Workload) : ObjectReference :=
  mkRef (wKind o) (wNamespace o) (wName o) (wUID o) (wAPIVersion o).

(** [controllerutil.SetControllerReference]: refused when the object is
    already controlled by another owner. *)
Definition SetControllerReference (c : Cron) (o : Workload) : Error + Workload :=
  match wController o with
  | Some owner =>
      if String.eqb owner (cronUID c) then inr o else inl ErrOwner
  | None =>
      inr (mkWorkload (wKind o) (wAPIVersion o) (wName o) (wGenerateName o)
             (wNamespace o) (wUID o) (wLabels o) (wCreationTimestamp o)
             (Some (cronUID c)) (wConditions o))
  end.

Definition SetGenerateName (g : string) (o : Workload) : Workload :=
  mkWorkload (wKind o) (wAPIVersion o) (wName o) g (wNamespace o) (wUID o)
    (wLabels o) (wCreationTimestamp o) (wController o) (wConditions o).

Definition SetName (n : string) (o : Workload) : Workload :=
  mkWorkload (wKind o) (wAPIVersion o) n (wGenerateName o) (wNamespace o)
    (wUID o) (wLabels o) (wCreationTimestamp o) (wController o) (wConditions o).

Definition SetNamespace (n : string) (o : Workload) : Workload :=
  mkWorkload (wKind o) (wAPIVersion o) (wName o) (wGenerateName o) n (wUID o)
    (wLabels o) (wCreationTimestamp o) (wController o) (wConditions o).

Definition SetLabels (l : gmap string string) (o : Workload) : Workload :=
  mkWorkload (wKind o) (wAPIVersion o) (wName o) (wGenerateName o)
    (wNamespace o) (wUID o) l (wCreationTimestamp o) (wController o)
    (wConditions o).

(** ** History: key, order, fold *)

(** Every entry of a history has a created time. *)
Definition historyDated (hs : list CronHistory) : Prop :=
  Forall (λ h, is_Some (hCreated h)) hs.

#[global] Instance historyDated_dec hs : Decision (historyDated hs).
Proof. unfold historyDated. apply _. Defined.

(** The key closure of [updateCronHistory]: ["%s-%d"] of the object name and
    the created time in seconds.  [h.Created.Unix()] dereferences the created
    time, so the closure panics on an entry without one: [updateCronHistory]
    below panics before it asks for the key of such an entry, and the key
    given here for it is never used. *)
Definition historyKey (h : CronHistory) : string :=
  Name (hObject h) +:+ "-" +:+
  pretty (match hCreated h with Some t => Unix t | None => 0 end).

(** The first loop of [updateCronHistory]: the map from key to index, a later
    entry overwriting an earlier one with the same key. *)
Fixpoint indexHistory (i : nat) (hs : list CronHistory) (m : gmap string nat)
  : gmap string nat :=
  match hs with
  | [] => m
  | h :: hs' => indexHistory (S i) hs' (<[historyKey h := i]> m)
  end.

(** The in-place update of a matched entry: UID and status are overwritten,
    the finished time only by a non-nil one; nothing else is touched. *)
Definition refreshHistory (newHistory old : CronHistory) : CronHistory :=
  mkHistory (hUID newHistory) (hObject old) (hStatus newHistory) (hCreated old)
    (match hFinished newHistory with
     | Some f => Some f
     | None => hFinished old
     end).

(** The body of the second loop, for one observed workload.  [index] is the
    map built before the loop; it is not extended by the appends. *)
Definition foldWorkload (apiVersion kind : string) (index : gmap string nat)
    (hs : list CronHistory) (w : Workload) : list CronHistory :=
  let newHistory := workloadToHistory w apiVersion kind in
  match index !! historyKey newHistory with
  | Some idx => alter (refreshHistory newHistory) idx hs
  | None => hs ++ [newHistory]
  end.

Definition foldWorkloads (apiVersion kind : string) (hs : list CronHistory)
    (workloads : list Workload) : list CronHistory :=
  foldl (foldWorkload apiVersion kind (indexHistory 0 hs ∅)) hs workloads.

(** The [less] closure handed to [sort.Slice]: an entry without a created
    time is not before one with a created time, and one with a created time
    is before one without; equal created times (two nil ones included) are
    ordered by name, other ones by [Before]. *)
Definition historyLess (hi hj : CronHistory) : bool :=
  match hCreated hi, hCreated hj with
  | None, Some _ => false
  | Some _, None => true
  | _, _ =>
      if timeEqual (hCreated hi) (hCreated hj)
      then String.ltb (Name (hObject hi)) (Name (hObject hj))
      else timeBefore (hCreated hi) (hCreated hj)
  end.

(** [a] may stand before [b] in a slice sorted by [historyLess]. *)
Definition historyLe (a b : CronHistory) : Prop := historyLess b a = false.

#[global] Instance historyLe_dec a b : Decision (historyLe a b).
Proof. unfold historyLe. apply _. Defined.

(** [sort.Slice] with [historyLess].  The library sort is not stable; it is
    modelled by a merge sort, and nothing below depends on the order it gives
    to entries that [historyLess] does not separate. *)
Definition sortHistory (hs : list CronHistory) : list CronHistory :=
  merge_sort historyLe hs.

(** ** The reconciler *)

Section Controller.

(** [cronv3.ParseStandard] of the cron library ([None]: the expression does
    not parse) and the label key [common.LabelCronName]. *)
Variable ParseStandard : string → option (Z → Z).
Variable LabelCronName : string.

(** [deleteWorkload]: deletes a workload by its reference. *)
Definition deleteWorkload (ref : ObjectReference) : M unit :=
  cron <- getSelf ;;
  match newEmptyWorkload cron with
  | inl err => fail err
  | inr _ =>
      r <- readWorld (apiGet (refNamespace ref, refName ref)) ;;
      match r with
      | inl err =>
          if IsNotFound err then
            modifySelf (deleteFromActiveList (refUID ref)) ;;;
            ret tt
          else fail err
      | inr workload =>
          modifySelf (deleteFromActiveList (refUID ref)) ;;;
          (* the error of Delete is logged, not returned *)
          _ <- stepWorld (apiDelete workload) ;;
          Eventf EventTypeNormal "SuccessfulDelete" (refName ref) ;;;
          ret tt
      end
  end.

(** [for _, ref := range refs { if err := deleteWorkload(ref); err != nil
    { return err } }] *)
Fixpoint deleteWorkloads (refs : list ObjectReference) : M unit :=
  match refs with
  | [] => ret tt
  | ref :: rest => deleteWorkload ref ;;; deleteWorkloads rest
  end.

(** [listActiveWorkloads]: the workloads behind the recorded active
    references that the cached client can still find. *)
Fixpoint listActiveLoop (cron : Cron) (active : list ObjectReference)
    (workloads : list Workload) : M (list Workload) :=
  match active with
  | [] => ret workloads
  | ref :: rest =>
      match newEmptyWorkload cron with
      | inl _ => listActiveLoop cron rest workloads
      | inr _ =>
          r <- readWorld (apiGet (refNamespace ref, refName ref)) ;;
          match r with
          | inl err =>
              if IsNotFound err then listActiveLoop cron rest workloads
              else fail err
          | inr workload => listActiveLoop cron rest (workloads ++ [workload])
          end
      end
  end.

Definition listActiveWorkloads : M (list Workload) :=
  cron <- getSelf ;;
  listActiveLoop cron (Active (Status cron)) [].

(** The reference [updateCronHistory] builds for an evicted entry;
    [*truncate.Object.APIGroup] panics on a nil group. *)
Definition truncateRef (cron : Cron) (truncate : CronHistory)
  : option ObjectReference :=
  match APIGroup (hObject truncate) with
  | Some g =>
      Some (mkRef (Kind (hObject truncate)) (cronNamespace cron)
              (Name (hObject truncate)) (hUID truncate) g)
  | None => None
  end.

Fixpoint deleteTruncated (toTruncate : list CronHistory) : M unit :=
  match toTruncate with
  | [] => ret tt
  | truncate :: rest =>
      cron <- getSelf ;;
      match truncateRef cron truncate with
      | None => panic
      | Some ref => deleteWorkload ref ;;; deleteTruncated rest
      end
  end.

(** The end of [updateCronHistory], once the history is sorted: evict what
    exceeds the limit, oldest first, delete the evicted workloads, and
    persist the status.  Under a negative limit the slice expression
    [History[:historySize-historyLimit]] asks for more than the length of
    the history and panics with slice bounds out of range; the history is
    taken to have no spare capacity beyond its length, as a slice has that
    was decoded or copied. *)
Definition truncateHistory : M unit :=
  cron <- getSelf ;;
  let historySize := Z.of_nat (length (History (Status cron))) in
  match HistoryLimit (Spec cron) with
  | Some historyLimit =>
      if decide (historyLimit < historySize) then
        if decide (historyLimit < 0) then panic
        else
          let n := Z.to_nat (historySize - historyLimit) in
          deleteTruncated (take n (History (Status cron))) ;;;
          modifySelf (λ c, setHistory (drop n (History (Status c))) c) ;;;
          statusUpdate
      else statusUpdate
  | None => statusUpdate
  end.

(** [updateCronHistory]: folds the observed workloads into the history,
    sorts it, evicts what exceeds the limit, and persists the status.  The
    first loop asks for the key of every entry of the history, before
    anything is changed: an entry without a created time makes it panic. *)
Definition updateCronHistory (workloads : list Workload) : M unit :=
  cron <- getSelf ;;
  if decide (historyDated (History (Status cron))) then
    modifySelf (setHistory
      (foldWorkloads (tplAPIVersion (Template (Spec cron)))
         (tplKind (Template (Spec cron))) (History (Status cron)) workloads)) ;;;
    modifySelf (λ c, setHistory (sortHistory (History (Status c))) c) ;;;
    truncateHistory
  else panic.

(** [newWorkloadFromTemplate]: the workload to create for a firing. *)
Definition newWorkloadFromTemplate (scheduleTime : Time) : M Workload :=
  cron <- getSelf ;;
  match newEmptyWorkload cron with
  | inl err => fail err
  | inr w =>
      let w := if decide (String.length (wGenerateName w) ≠ 0%nat)
               then SetGenerateName "" w else w in
      w <- (if decide (String.length (wName w) = 0%nat)
            then ret (SetName (getDefaultJobName cron scheduleTime) w)
            else
              Eventf EventTypeNormal "OverridePolicy" (wName w) ;;;
              modifySelf (setConcurrencyPolicy ConcurrentPolicyForbid) ;;;
              ret w) ;;
      let w := SetNamespace (cronNamespace cron) w in
      let w := SetLabels (<[LabelCronName := cronName cron]> (wLabels w)) w in
      match SetControllerReference cron w with
      | inl err => fail err
      | inr w => ret w
      end
  end.

(** The end of [scheduleNextIfPossible], from the construction of the
    workload on: create it, and on success record it as active, advance the
    last-fired time and persist. *)
Definition createScheduled (schedule : Z → Z) (now scheduledTime : Time)
  : M (option Duration) :=
  workloadToCreate <- mapErr ErrInit (newWorkloadFromTemplate scheduledTime) ;;
  r <- stepWorld (apiCreate workloadToCreate) ;;
  match r with
  | inl err =>
      cron <- getSelf ;;
      if IsAlreadyExists err && inActiveList (Active (Status cron)) workloadToCreate
      then fail err
      else
        Eventf EventTypeWarning "FailedCreate" (wName workloadToCreate) ;;;
        fail err
  | inr created =>
      let ref := GetReference created in
      Eventf EventTypeNormal "SuccessfulCreate" (refName ref) ;;;
      modifySelf (λ c, setActive (Active (Status c) ++ [ref]) c) ;;;
      modifySelf (setLastScheduleTime (Some scheduledTime)) ;;;
      statusUpdate ;;;
      ret (nextScheduledTimeDuration schedule now)
  end.

(** The part of [scheduleNextIfPossible] that follows the evaluation of the
    schedule: nothing to start when no time is due or the due time is the
    last-fired one; otherwise the concurrency policy, then the creation. *)
Definition startScheduled (schedule : Z → Z) (now : Time)
    (scheduledTime : option Time) : M (option Duration) :=
  cron <- getSelf ;;
  match scheduledTime with
  | None => ret (nextScheduledTimeDuration schedule now)
  | Some scheduledTime =>
      if timeEqual (LastScheduleTime (Status cron)) (Some scheduledTime)
      then ret (nextScheduledTimeDuration schedule now)
      else if decide (ConcurrencyPolicy_ (Spec cron) = ConcurrentPolicyForbid
                      ∧ (0 < length (Active (Status cron)))%nat)
      then
        Eventf EventTypeNormal "AlreadyActive" "" ;;;
        ret (nextScheduledTimeDuration schedule now)
      else
        (if decide (ConcurrencyPolicy_ (Spec cron) = ConcurrentPolicyReplace)
         then deleteWorkloads (Active (Status cron))
         else ret tt) ;;;
        createScheduled schedule now scheduledTime
  end.

(** [scheduleNextIfPossible] *)
Definition scheduleNextIfPossible (now : Time) : M (option Duration) :=
  cron <- getSelf ;;
  match ParseStandard (Schedule (Spec cron)) with
  | None =>
      Eventf EventTypeWarning "InvalidSchedule" (Schedule (Spec cron)) ;;;
      ret None
  | Some schedule =>
      r <- getNextScheduleTime now schedule ;;
      match r with
      | inl err =>
          Eventf EventTypeWarning "InvalidSchedule" (Schedule (Spec cron)) ;;;
          fail err
      | inr scheduledTime => startScheduled schedule now scheduledTime
      end
  end.

(** The object the local variable [cron] of
    [trimFinishedWorkloadsFromActiveList] points to: the caller's object,
    until [cron = latestCron] rebinds it to a fresh copy the caller never
    sees. *)
Definition currentCron (latest : option Cron) : M Cron :=
  match latest with
  | Some c => ret c
  | None => getSelf
  end.

Definition updateCurrent (latest : option Cron) (f : Cron → Cron)
  : M (option Cron) :=
  match latest with
  | Some c => ret (Some (f c))
  | None => modifySelf f ;;; ret None
  end.

(** First loop of the trim pass, over the observed workloads. *)
Fixpoint trimObserved (workloads : list Workload) (latest : option Cron)
    (knownActive : gset string) : M (option Cron * gset string) :=
  match workloads with
  | [] => ret (latest, knownActive)
  | w :: rest =>
      let knownActive := {[wUID w]} ∪ knownActive in
      cron <- currentCron latest ;;
      let found := existsb (λ r, String.eqb (refUID r) (wUID w))
                     (Active (Status cron)) in
      let finished := snd (IsWorkloadFinished w) in
      if negb found && negb finished then
        r <- readWorld (apiGetCron (cronNamespace cron, cronName cron)) ;;
        match r with
        | inl err => fail err
        | inr latestCron =>
            if inActiveList (Active (Status latestCron)) w
            then trimObserved rest (Some latestCron) knownActive
            else
              Eventf EventTypeWarning "ExpectedWorkload" (wName w) ;;;
              trimObserved rest latest knownActive
        end
      else if found && finished then
        latest <- updateCurrent latest (deleteFromActiveList (wUID w)) ;;
        Eventf EventTypeNormal "SawCompletedWorkload" (wName w) ;;;
        trimObserved rest latest knownActive
      else trimObserved rest latest knownActive
  end.

(** Second loop of the trim pass, over the active references as they stand
    when the loop starts. *)
Fixpoint trimMissing (refs : list ObjectReference) (latest : option Cron)
    (knownActive : gset string) : M unit :=
  match refs with
  | [] => ret tt
  | objRef :: rest =>
      if decide (refUID objRef ∈ knownActive)
      then trimMissing rest latest knownActive
      else
        cron <- currentCron latest ;;
        match newEmptyWorkload cron with
        | inl _ => trimMissing rest latest knownActive
        | inr _ =>
            r <- readWorld (apiRead (refNamespace objRef, refName objRef)) ;;
            match r with
            | inl err =>
                (if IsNotFound err then
                   Eventf EventTypeNormal "MissingWorkload" (refName objRef) ;;;
                   _ <- updateCurrent latest
                          (deleteFromActiveList (refUID objRef)) ;;
                   ret tt
                 else ret tt) ;;;
                fail err
            | inr _ => trimMissing rest latest knownActive
            end
        end
  end.

(** [trimFinishedWorkloadsFromActiveList] *)
Definition trimFinishedWorkloadsFromActiveList (workloads : list Workload)
  : M unit :=
  seen <- trimObserved workloads None ∅ ;;
  cron <- currentCron (fst seen) ;;
  trimMissing (Active (Status cron)) (fst seen) (snd seen).

(** [syncCron] *)
Definition syncCron (workloads : list Workload) : M (option Duration) :=
  now <- readWorld w_now ;;
  trimFinishedWorkloadsFromActiveList workloads ;;;
  statusUpdate ;;;
  cron <- getSelf ;;
  if bool_decide (is_Some (DeletionTimestamp cron)) then ret None
  else if bool_decide (Suspend (Spec cron) = Some true) then ret None
  else
    match Deadline (Spec cron) with
    | Some deadline =>
        if deadline <? now then
          Eventf EventTypeNormal "Deadline" "" ;;;
          ret None
        else scheduleNextIfPossible now
    | None => scheduleNextIfPossible now
    end.

(** The body of [Reconcile] once the cron resource is loaded. *)
Definition reconcileLoaded : M (option Duration) :=
  actives <- listActiveWorkloads ;;
  updateCronHistory actives ;;;
  syncCron actives.

(** [Reconcile]: one cycle.  The result is the requeue delay, if any. *)
Definition Reconcile (req : string * string) (w : World)
  : result (option Duration) * World :=
  match apiGetCron req w with
  | inl err => if IsNotFound err then (Ok None, w) else (Err err, w)
  | inr cron =>
      let '(r, s) := reconcileLoaded (mkSt w cron) in (r, world s)
  end.

End Controller.

(** ** Vocabulary of the statements *)



(** A computation leaves an observation [f] of the state alone, whatever its
    outcome. *)
Definition stable {A X} (f : St → X) (m : M A) : Prop :=
  ∀ s, f (snd (m s)) = f s.

(** A computation keeps an invariant [I] of the state, whatever its
    outcome. *)
Definition keeps {A} (I : St → Prop) (m : M A) : Prop :=
  ∀ s, I s → I (snd (m s)).

(** The in-memory history, and what is persisted: the cron resource and the
    workload objects. *)
Definition historyOf (s : St) : list CronHistory := History (Status (self s)).
Definition storedCron (s : St) : option Cron := w_cron (world s).
Definition storedWorkloads (s : St) : gmap (string * string) Workload :=
  w_workloads (world s).

(** The situation in which nothing is due: the clock reads [now]; the cron,
    in memory and as stored, has the spec [sp] and the last-fired time [t];
    and no workload is in the store that was not in [initial]. *)
Definition nothingDue (now : Time) (sp : CronSpec) (t : Time)
    (initial : gmap (string * string) Workload) (s : St) : Prop :=
  w_now (world s) = now ∧
  storedWorkloads s ⊆ initial ∧
  Spec (self s) = sp ∧
  LastScheduleTime (Status (self s)) = Some t ∧
  ∀ c, storedCron s = Some c →
       Spec c = sp ∧ LastScheduleTime (Status c) = Some t.

(** A computation started in a state that satisfies [I] ends, whatever its
    outcome, in a state that satisfies [J]. *)
Definition leads {A} (I J : St → Prop) (m : M A) : Prop :=
  ∀ s, I s → J (snd (m s)).

(** The world [after] a cycle, against the world [before].  Either the
    store has created nothing: every workload is one of [before], as it was,
    and the UID counter has not moved.  Or the store has created one object
    [o]: it carries the UID the counter stood at and the clock as its
    creation time, it was put under its own name, which was free at that
    moment, and every other workload is one of [before], as it was.  The
    controller has no call that writes to a stored workload, so what is
    kept of [before] is kept unchanged; a name may be taken by [o] after
    the workload that had it was deleted. *)
Definition grownByOne (before after : World) : Prop :=
  (w_workloads after ⊆ w_workloads before ∧
   w_nextUID after = w_nextUID before) ∨
  ∃ kept o,
    kept ⊆ w_workloads before ∧ kept !! workloadKey o = None ∧
    w_workloads after = <[workloadKey o := o]> kept ∧
    wUID o = "uid-" +:+ pretty (w_nextUID before) ∧
    wCreationTimestamp o = w_now before ∧
    w_nextUID after = N.succ (w_nextUID before).

(** The stop conditions of [syncCron]: the cron is being deleted, is
    suspended, or its deadline has passed. *)
Definition stopped (now : Time) (c : Cron) : Prop :=
  is_Some (DeletionTimestamp c) ∨
  Suspend (Spec c) = Some true ∨
  ∃ deadline, Deadline (Spec c) = Some deadline ∧ deadline < now.

(** A cycle on a stopped cron: the clock reads [now], the cron is stopped in
    memory and as stored and has the last-fired time [last], and no workload
    is in the store that was not in [initial]. *)
Definition stoppedCycle (now : Time) (last : option Time)
    (initial : gmap (string * string) Workload) (s : St) : Prop :=
  w_now (world s) = now ∧
  storedWorkloads s ⊆ initial ∧
  stopped now (self s) ∧
  LastScheduleTime (Status (self s)) = last ∧
  ∀ c, storedCron s = Some c →
       stopped now c ∧ LastScheduleTime (Status c) = last.

(** What the trim pass has no business with: everything persisted, and of
    the in-memory cron the spec, the history and the last-fired time. *)
Definition trimFrame (s : St)
  : option Cron * gmap (string * string) Workload * CronSpec
    * list CronHistory * option Time :=
  (storedCron s, storedWorkloads s, Spec (self s), History (Status (self s)),
   LastScheduleTime (Status (self s))).

(** The history [updateCronHistory] persists under a limit: the newest
    entries of the sorted history, at most [limit] of them. *)
Definition keepNewest (limit : option Z) (sorted : list CronHistory)
  : list CronHistory :=
  match limit with
  | Some n => drop (Z.to_nat (Z.of_nat (length sorted) - n)) sorted
  | None => sorted
  end.

(** The set [knownActive] after the first loop of the trim pass: the UIDs
    of the observed workloads, on top of those already known. *)
Definition observedUIDs (workloads : list Workload) (known : gset string)
  : gset string :=
  foldl (λ k w, {[wUID w]} ∪ k) known workloads.

(** A computation never panics. *)
Definition noPanic {A} (m : M A) : Prop := ∀ s, fst (m s) ≠ Panic.

(** Every entry of a history names its API group; [updateCronHistory]
    dereferences the group of every entry it evicts. *)
Definition historyGrouped (hs : list CronHistory) : Prop :=
  Forall (λ h, is_Some (APIGroup (hObject h))) hs.

(** The stored cron is [c] but for its status. *)
Definition statusOnly (c : Cron) (s : St) : Prop :=
  ∃ st, storedCron s = Some (setStatus st c).

(** Nothing has been created since the world was [initial]: no workload is
    in the store that was not in it, those that are kept are as they were,
    and the UID counter and the clock have not moved. *)
Definition nothingNew (initial : World) (s : St) : Prop :=
  storedWorkloads s ⊆ w_workloads initial ∧
  w_nextUID (world s) = w_nextUID initial ∧
  w_now (world s) = w_now initial.

(** ** A cron resource and a world to run the reconciler on *)

Module Demo.

Definition minute : Z := 60000000000.

(** The schedule of ["* * * * *"]: the next full minute strictly after an
    instant. *)
Definition everyMinute : Z → Z := λ t, (t `div` minute + 1) * minute.

(** A parser that knows the every-minute expression only. *)
Definition parse (s : string) : option (Z → Z) :=
  if String.eqb s "* * * * *" then Some everyMinute else None.

Definition label : string := "cron-name".

Definition templateObject (name uid : string) : Workload :=
  mkWorkload "TFJob" "kubeflow.org/v1" name "" "" uid ∅ 0 None [].

Definition spec (schedule name uid : string) (policy : ConcurrencyPolicy)
    (limit : option Z) : CronSpec :=
  mkSpec schedule
    (mkTemplate "kubeflow.org/v1" "TFJob" (Some (templateObject name uid)))
    policy None None limit.

Definition cron (s : CronSpec) (st : CronStatus) : Cron :=
  mkCron "nightly" "ml" "cron-uid" 0 None s st.

(** A stored workload of the cron, with its reference. *)
Definition job (name uid : string) (created : Z) (conds : list JobCondition)
  : Workload :=
  mkWorkload "TFJob" "kubeflow.org/v1" name "" "ml" uid
    {[label := "nightly"]} created (Some "cron-uid") conds.

Definition ref (name uid : string) : ObjectReference :=
  mkRef "TFJob" "ml" name uid "kubeflow.org/v1".

Definition store (jobs : list Workload) : gmap (string * string) Workload :=
  list_to_map ((λ o, (workloadKey o, o)) <$> jobs).

Definition noFault : Op → option Error := λ _, None.

Definition world (c : Cron) (jobs : list Workload) (now : Z)
    (fault : Op → option Error) : World :=
  mkWorld (Some c) (store jobs) [] 0 now fault.

Definition req : string * string := ("ml", "nightly").

Definition everyMinuteSpec (name uid : string) (policy : ConcurrencyPolicy)
    (limit : option Z) : CronSpec :=
  spec "* * * * *" name uid policy limit.

(** Two workloads fired at the first and the second minute. *)
Definition job60 : Workload := job "nightly-60" "uid-a" (minute + 1) [].
Definition job120 : Workload := job "nightly-120" "uid-b" (2 * minute + 1) [].
Definition ref60 : ObjectReference := ref "nightly-60" "uid-a".
Definition ref120 : ObjectReference := ref "nightly-120" "uid-b".

(** The store refuses to delete the first workload. *)
Definition deleteFails : Op → option Error :=
  λ op, match op with
        | OpDelete key =>
            if decide (key = ("ml", "nightly-60")) then Some (ErrOther 1)
            else None
        | _ => None
        end.

(** A history entry of a workload that failed at second 100, and the same
    workload observed again with a terminal condition dated second 200. *)
Definition failedEntry : CronHistory :=
  mkHistory "uid-a" (mkTyped (Some "kubeflow.org/v1") "TFJob" "nightly-60")
    (Some JobFailed) (Some (minute + 1)) (Some 100000000000).
Definition failedAgain : Workload :=
  job "nightly-60" "uid-a" (minute + 1) [mkCondition JobFailed 200000000000].

(** A template with a fixed name. *)
Definition fixedName : string := "train".

(** The workload of a fixed-name template exists and is tracked: the
    template carries the UID of the recorded reference. *)
Definition trackedCron : Cron :=
  cron (everyMinuteSpec fixedName "uid-a" ConcurrentPolicyAllow None)
    (mkStatus [ref fixedName "uid-a"] [] None).
Definition trackedWorld : World :=
  world trackedCron [job fixedName "uid-a" 1 []] (minute + 5) noFault.

(** The same, with a template that carries no UID: the existing workload
    is not tracked. *)
Definition untrackedCron : Cron :=
  cron (everyMinuteSpec fixedName "" ConcurrentPolicyAllow None)
    (mkStatus [] [] None).
Definition untrackedWorld : World :=
  world untrackedCron [job fixedName "uid-a" 1 []] (minute + 5) noFault.
(** The workload built from that template. *)
Definition untrackedWorkload : Workload :=
  mkWorkload "TFJob" "kubeflow.org/v1" fixedName "" "ml" ""
    {[label := "nightly"]} 0 (Some "cron-uid") [].

(** An active reference whose workload is gone from the store. *)
Definition missingCron : Cron :=
  cron (everyMinuteSpec "" "" ConcurrentPolicyAllow None)
    (mkStatus [ref60] [] (Some minute)).
Definition missingWorld : World :=
  world missingCron [] (2 * minute + 5) noFault.

(** Replace policy, one running workload, its deletion refused. *)
Definition replaceCron : Cron :=
  cron (everyMinuteSpec "" "" ConcurrentPolicyReplace None)
    (mkStatus [ref60] [] (Some minute)).
Definition replaceWorld : World :=
  world replaceCron [job60] (2 * minute + 5) deleteFails.

(** History limit 1, two workloads observed, the deletion of the older one
    refused. *)
Definition limitCron : Cron :=
  cron (everyMinuteSpec "" "" ConcurrentPolicyForbid (Some 1))
    (mkStatus [ref60; ref120] [] (Some (2 * minute))).
Definition limitWorld : World :=
  world limitCron [job60; job120] (2 * minute + 5) deleteFails.

(** Declared policy Allow, a template with a fixed name, and one workload
    still running when the second minute is due. *)
Definition fixedCron : Cron :=
  cron (everyMinuteSpec fixedName "" ConcurrentPolicyAllow None)
    (mkStatus [ref60] [] (Some minute)).
Definition fixedWorld : World :=
  world fixedCron [job60] (2 * minute + 5) noFault.

(** A schedule expression that does not parse. *)
Definition brokenCron : Cron :=
  cron (spec "every minute" "" "" ConcurrentPolicyAllow None)
    (mkStatus [] [] None).
Definition brokenWorld : World := world brokenCron [] (minute + 5) noFault.

(** A fresh cron, first minute due. *)
Definition freshCron : Cron :=
  cron (everyMinuteSpec "" "" ConcurrentPolicyAllow None) (mkStatus [] [] None).
Definition freshWorld : World := world freshCron [] (minute + 5) noFault.

(** The state the scheduling step leaves when the first minute fires on the
    fresh cron. *)
Definition afterFirstMinute : St :=
  snd (scheduleNextIfPossible parse label (minute + 5)
         (mkSt freshWorld freshCron)).

(** A cron whose last-fired time is the first minute. *)
Definition firedCron : Cron :=
  cron (everyMinuteSpec "" "" ConcurrentPolicyAllow None)
    (mkStatus [ref60] [] (Some minute)).
Definition firedState : St := mkSt (world firedCron [job60] (minute + 5) noFault) firedCron.

(** A template that asks for a generated name, and the workload built from
    it for the first minute. *)
Definition generatedTemplate : Workload :=
  mkWorkload "TFJob" "kubeflow.org/v1" "" "train-" "" "" ∅ 0 None [].
Definition generatedCron : Cron :=
  cron (mkSpec "* * * * *"
          (mkTemplate "kubeflow.org/v1" "TFJob" (Some generatedTemplate))
          ConcurrentPolicyAllow None None None)
    (mkStatus [] [] None).
Definition generatedWorkload : Workload :=
  mkWorkload "TFJob" "kubeflow.org/v1" "nightly-60" "" "ml" ""
    {[label := "nightly"]} 0 (Some "cron-uid") [].

(** A suspended cron whose second minute would be due, one workload
    running. *)
Definition suspendedCron : Cron :=
  cron (mkSpec "* * * * *"
          (mkTemplate "kubeflow.org/v1" "TFJob" (Some (templateObject "" "")))
          ConcurrentPolicyAllow (Some true) None None)
    (mkStatus [ref60] [] (Some minute)).
Definition suspendedWorld : World :=
  world suspendedCron [job60] (2 * minute + 5) noFault.

(** A history that holds the first workload, and the second workload
    observed twice. *)
Definition entry60 : CronHistory :=
  mkHistory "uid-a" (mkTyped (Some "kubeflow.org/v1") "TFJob" "nightly-60")
    None (Some (minute + 1)) None.


(** A history limit of three, one entry recorded, one workload running. *)
Definition roomyCron : Cron :=
  cron (everyMinuteSpec "" "" ConcurrentPolicyAllow (Some 3))
    (mkStatus [ref60] [entry60] (Some minute)).
Definition roomyWorld : World := world roomyCron [job60] (minute + 5) noFault.

(** A history entry without an API group, older than the recorded ones,
    under a history limit of one. *)
Definition ungrouped : CronHistory :=
  mkHistory "uid-0" (mkTyped None "TFJob" "nightly-0") None (Some 1) None.
Definition ungroupedCron : Cron :=
  cron (everyMinuteSpec "" "" ConcurrentPolicyAllow (Some 1))
    (mkStatus [] [ungrouped; entry60] (Some minute)).
Definition ungroupedWorld : World := world ungroupedCron [] (minute + 5) noFault.

(** A reference to the first workload by name, with a UID of an earlier
    object of that name. *)
Definition staleRef : ObjectReference := ref "nightly-60" "uid-stale".

(** The store refuses every status update. *)
Definition updateFails : Op → option Error :=
  λ op, match op with
        | OpUpdateStatus => Some (ErrOther 2)
        | _ => None
        end.
Definition unwritableWorld : World :=
  world freshCron [] (minute + 5) updateFails.

(** The in-memory cron has lost track of the first workload, the stored one
    has not. *)
Definition forgetfulState : St :=
  mkSt (world firedCron [job60] (minute + 5) noFault) freshCron.

(** The first workload as the store creates it on the fresh world. *)
Definition firstWorkload : Workload :=
  mkWorkload "TFJob" "kubeflow.org/v1" "nightly-60" "" "ml" "uid-0"
    {[label := "nightly"]} (minute + 5) (Some "cron-uid") [].

End Demo.

(** * Properties *)

(** ** The order on history entries *)

Lemma ascii_compare_lt_trans (a b c : Ascii.ascii) :
  Ascii.compare a b = Lt → Ascii.compare b c = Lt → Ascii.compare a c = Lt.
Proof.
  unfold Ascii.compare. rewrite !N.compare_lt_iff. lia.
Qed.

Lemma string_compare_lt_trans (s1 s2 s3 : string) :
  String.compare s1 s2 = Lt → String.compare s2 s3 = Lt →
  String.compare s1 s3 = Lt.
Proof.
  revert s2 s3. induction s1 as [|a s1 IH]; intros [|b s2] [|c s3]; simpl;
    try done.
  destruct (Ascii.compare a b) eqn:Hab; try done.
  - apply Ascii.compare_eq_iff in Hab as ->.
    destruct (Ascii.compare b c) eqn:Hbc; try done. by apply IH.
  - intros _. destruct (Ascii.compare b c) eqn:Hbc; try done.
    + apply Ascii.compare_eq_iff in Hbc as <-. by rewrite Hab.
    + by rewrite (ascii_compare_lt_trans a b c).
Qed.

(** [ltb b a = false] reads [a ≤ b]; it is transitive. *)
Lemma string_ltb_false_trans (a b c : string) :
  String.ltb b a = false → String.ltb c b = false → String.ltb c a = false.
Proof.
  unfold String.ltb. intros Hba Hcb.
  destruct (String.compare c a) eqn:Hca; try done. exfalso.
  destruct (String.compare b a) eqn:Hba'; try done.
  - apply String.compare_eq_iff in Hba' as ->. by rewrite Hca in Hcb.
  - destruct (String.compare c b) eqn:Hcb'; try done.
    + apply String.compare_eq_iff in Hcb' as ->. by rewrite Hca in Hba'.
    + (* a < b, b < c, c < a *)
      rewrite String.compare_antisym in Hba'.
      destruct (String.compare a b) eqn:Hab; try discriminate Hba'.
      rewrite String.compare_antisym in Hcb'.
      destruct (String.compare b c) eqn:Hbc; try discriminate Hcb'.
      pose proof (string_compare_lt_trans _ _ _ Hab Hbc) as Hac.
      rewrite String.compare_antisym, Hac in Hca. discriminate Hca.
Qed.

Lemma string_ltb_false_total (a b : string) :
  String.ltb b a = false ∨ String.ltb a b = false.
Proof.
  unfold String.ltb. rewrite (String.compare_antisym a b).
  destruct (String.compare b a); simpl; auto.
Qed.

#[global] Instance historyLe_total : Total historyLe.
Proof.
  intros a b. unfold historyLe, historyLess, timeEqual, timeBefore.
  destruct (hCreated a) as [ta|], (hCreated b) as [tb|]; auto.
  - rewrite (Z.eqb_sym tb ta).
    destruct (ta =? tb) eqn:E; [apply string_ltb_false_total|].
    apply Z.eqb_neq in E.
    destruct (Z.ltb_spec tb ta), (Z.ltb_spec ta tb); auto; lia.
  - apply string_ltb_false_total.
Qed.

#[global] Instance historyLe_trans : Transitive historyLe.
Proof.
  intros a b c. unfold historyLe, historyLess, timeEqual, timeBefore.
  destruct (hCreated a) as [ta|], (hCreated b) as [tb|],
    (hCreated c) as [tc|]; try done.
  - destruct (Z.eqb_spec tb ta), (Z.eqb_spec tc tb), (Z.eqb_spec tc ta);
      subst; try lia; rewrite ?Z.ltb_ge, ?Z.ltb_nlt;
      eauto using string_ltb_false_trans; try lia.
    all: intros; exfalso; lia.
  - apply string_ltb_false_trans.
Qed.


Lemma sortHistory_perm (hs : list CronHistory) : sortHistory hs ≡ₚ hs.
Proof. apply merge_sort_Permutation. Qed.





(** ** Frames of the monad *)

Section Stable.
Context {X : Type} (f : St → X).

Lemma stable_ret {A} (a : A) : stable f (ret a).
Proof. done. Qed.

Lemma stable_fail {A} (e : Error) : stable f (@fail A e).
Proof. done. Qed.

Lemma stable_panic {A} : stable f (@panic A).
Proof. done. Qed.

Lemma stable_bind {A B} (m : M A) (k : A → M B) :
  stable f m → (∀ a, stable f (k a)) → stable f (bind m k).
Proof.
  intros Hm Hk s. unfold bind. specialize (Hm s).
  destruct (m s) as [[a| |] s']; simpl in *; [|done..].
  by rewrite Hk.
Qed.

Lemma stable_mapErr {A} (g : Error → Error) (m : M A) :
  stable f m → stable f (mapErr g m).
Proof.
  intros Hm s. unfold mapErr. specialize (Hm s).
  by destruct (m s) as [[a| |] s'].
Qed.

Lemma stable_getSelf : stable f getSelf.
Proof. done. Qed.

Lemma stable_readWorld {A} (g : World → A) : stable f (readWorld g).
Proof. done. Qed.

Lemma stable_modifySelf (g : Cron → Cron) :
  (∀ w c, f (mkSt w (g c)) = f (mkSt w c)) → stable f (modifySelf g).
Proof. intros H [w c]. apply H. Qed.

Lemma stable_stepWorld {A} (g : World → A * World) :
  (∀ w c, f (mkSt (snd (g w)) c) = f (mkSt w c)) → stable f (stepWorld g).
Proof.
  intros H [w c]. unfold stepWorld. simpl. specialize (H w c).
  by destruct (g w).
Qed.

Lemma stable_Eventf t reason note :
  (∀ w c e, f (mkSt (record e w) c) = f (mkSt w c)) →
  stable f (Eventf t reason note).
Proof. intros H [w c]. apply H. Qed.
End Stable.

(** Running a bind, one step at a time. *)
Lemma bind_getSelf {B} (k : Cron → M B) (s : St) :
  bind getSelf k s = k (self s) s.
Proof. done. Qed.

Lemma bind_modifySelf {B} (f : Cron → Cron) (k : unit → M B) (s : St) :
  bind (modifySelf f) k s = k tt (mkSt (world s) (f (self s))).
Proof. done. Qed.

Lemma bind_readWorld {A B} (f : World → A) (k : A → M B) (s : St) :
  bind (readWorld f) k s = k (f (world s)) s.
Proof. done. Qed.

Lemma bind_Eventf {B} t reason note (k : unit → M B) (s : St) :
  bind (Eventf t reason note) k s =
  k tt (mkSt (record (mkEvent t reason note) (world s)) (self s)).
Proof. done. Qed.

Lemma bind_ret {A B} (a : A) (k : A → M B) (s : St) : bind (ret a) k s = k a s.
Proof. done. Qed.

Lemma bind_fail {A B} (e : Error) (k : A → M B) (s : St) :
  bind (fail e) k s = (Err e, s).
Proof. done. Qed.

Lemma bind_assoc {A B C} (m : M A) (k1 : A → M B) (k2 : B → M C) (s : St) :
  bind (bind m k1) k2 s = bind m (λ a, bind (k1 a) k2) s.
Proof. unfold bind. by destruct (m s) as [[a| |] s']. Qed.

(** What [statusUpdate] does: either the store refuses and nothing changes,
    or the stored resource takes the in-memory status and the in-memory
    object becomes the stored one. *)
Lemma statusUpdate_cases (s : St) :
  (∃ e, statusUpdate s = (Err e, s)) ∨
  (∃ stored,
      w_cron (world s) = Some stored ∧
      let c' := setStatus (Status (self s)) stored in
      statusUpdate s =
        (Ok tt,
         mkSt (mkWorld (Some c') (w_workloads (world s)) (w_events (world s))
                 (w_nextUID (world s)) (w_now (world s)) (w_fault (world s)))
              c')).
Proof.
  destruct s as [w c]. unfold statusUpdate, bind, getSelf, stepWorld,
    apiUpdateStatus. simpl.
  destruct (w_fault w OpUpdateStatus) as [e|]; simpl.
  { left. exists e. by destruct w. }
  destruct (w_cron w) as [stored|] eqn:Hc; simpl.
  - case_decide; simpl.
    + right. by exists stored.
    + left. exists ErrNotFound. by destruct w.
  - left. exists ErrNotFound. by destruct w.
Qed.

Lemma statusUpdate_history : stable historyOf statusUpdate.
Proof.
  intros s. destruct (statusUpdate_cases s) as [[e ->]|[stored [_ ->]]]; done.
Qed.

Lemma deleteWorkload_history (ref : ObjectReference) :
  stable historyOf (deleteWorkload ref).
Proof.
  unfold deleteWorkload. apply stable_bind; [done|]. intros cron.
  destruct (newEmptyWorkload cron); [done|].
  apply stable_bind; [done|]. intros [err|workload].
  - destruct (IsNotFound err); [|done].
    apply stable_bind; [by apply stable_modifySelf|done].
  - apply stable_bind; [by apply stable_modifySelf|]. intros _.
    apply stable_bind; [by apply stable_stepWorld|]. intros _.
    apply stable_bind; [by apply stable_Eventf|done].
Qed.

Lemma deleteTruncated_history (toTruncate : list CronHistory) :
  stable historyOf (deleteTruncated toTruncate).
Proof.
  induction toTruncate as [|h rest IH]; simpl; [done|].
  apply stable_bind; [done|]. intros cron.
  destruct (truncateRef cron h); [|done].
  apply stable_bind; [apply deleteWorkload_history|done].
Qed.

(** ** The history fold keeps the history in order *)

Lemma updateCronHistory_run (workloads : list Workload) (w : World) (c : Cron) :
  historyDated (History (Status c)) →
  updateCronHistory workloads (mkSt w c) =
  truncateHistory
    (mkSt w
       (setHistory
          (sortHistory
             (foldWorkloads (tplAPIVersion (Template (Spec c)))
                (tplKind (Template (Spec c))) (History (Status c)) workloads))
          c)).
Proof.
  intros Hd. unfold updateCronHistory. rewrite bind_getSelf. simpl.
  rewrite decide_True by done. by destruct c as [? ? ? ? ? ? []].
Qed.

Lemma updateCronHistory_undated (workloads : list Workload) (s : St) :
  ¬ historyDated (historyOf s) → updateCronHistory workloads s = (Panic, s).
Proof.
  intros Hd. unfold updateCronHistory. rewrite bind_getSelf.
  by rewrite decide_False.
Qed.

Lemma statusUpdate_persists (s : St) :
  fst (statusUpdate s) = Ok tt →
  ∃ c, storedCron (snd (statusUpdate s)) = Some c ∧
       History (Status c) = historyOf s.
Proof.
  destruct (statusUpdate_cases s) as [[e ->]|[stored [_ ->]]]; simpl; [done|].
  intros _. eexists. split; [done|]. done.
Qed.





(** ** The history fold: matching by key *)

Lemma indexHistory_None (i : nat) (hs : list CronHistory) (m : gmap string nat)
    (k : string) :
  indexHistory i hs m !! k = None → ∀ h, h ∈ hs → historyKey h ≠ k.
Proof.
  revert i m. induction hs as [|h0 hs IH]; intros i m Hnone h Hin.
  - by apply elem_of_nil in Hin.
  - simpl in Hnone. apply elem_of_cons in Hin as [->|Hin].
    + intros Hk. clear IH. revert Hnone.
      assert (Hsome : is_Some (<[historyKey h0 := i]> m !! k))
        by (rewrite Hk, lookup_insert_eq; eauto).
      revert Hsome. generalize (<[historyKey h0 := i]> m) (S i).
      induction hs as [|h1 hs IH]; intros m' i' [x Hx]; simpl.
      * by rewrite Hx.
      * apply IH. destruct (decide (historyKey h1 = k)) as [->|Hne].
        -- rewrite lookup_insert_eq. eauto.
        -- rewrite lookup_insert_ne by done. eauto.
    + by eapply IH.
Qed.

Lemma indexHistory_Some (i : nat) (hs : list CronHistory) (m : gmap string nat)
    (k : string) (idx : nat) :
  indexHistory i hs m !! k = Some idx →
  m !! k = Some idx ∨
  ∃ h, (i ≤ idx)%nat ∧ hs !! (idx - i)%nat = Some h ∧ historyKey h = k.
Proof.
  revert i m. induction hs as [|h0 hs IH]; intros i m; simpl; [auto|].
  intros [Hm|[h [Hle [Hh Hk]]]]%IH.
  - destruct (decide (historyKey h0 = k)) as [Heq|Hne].
    + rewrite Heq, lookup_insert_eq in Hm. simplify_eq. right.
      exists h0. rewrite Nat.sub_diag. done.
    + rewrite lookup_insert_ne in Hm by done. auto.
  - right. exists h. split; [lia|]. split; [|done].
    replace (idx - i)%nat with (S (idx - S i)) by lia. done.
Qed.






(** ** Creation of the workload *)

Lemma apiCreate_refused (o : Workload) (w : World) (e : Error) :
  fst (apiCreate o w) = inl e → apiCreate o w = (inl e, w).
Proof.
  unfold apiCreate.
  destruct (w_fault w _); [by intros [= ->]|].
  destruct (storedName o w); [|by intros [= <-]].
  destruct (w_workloads w !! _); [by intros [= <-]|done].
Qed.

(** C1 (amended). When the creation of the workload fails with "already
    exists", the cycle is aborted with that error in both cases, and the
    workload is neither appended to the active list nor is the last-fired
    time advanced or the status persisted.  The two cases differ in the
    signal only: when the workload is already tracked in the active list the
    error is returned silently; when it is not, a FailedCreate warning is
    recorded first. *)
Theorem createScheduled_already_exists (LabelCronName : string)
    (schedule : Z → Z) (now scheduledTime : Time) (s s1 : St) (w : Workload) :
  newWorkloadFromTemplate LabelCronName scheduledTime s = (Ok w, s1) →
  fst (apiCreate w (world s1)) = inl ErrAlreadyExists →
  createScheduled LabelCronName schedule now scheduledTime s =
    (Err ErrAlreadyExists,
     if inActiveList (Active (Status (self s1))) w then s1
     else mkSt (record (mkEvent EventTypeWarning "FailedCreate" (wName w))
                  (world s1))
               (self s1)).
Proof.
  intros Hnew Hcreate. apply apiCreate_refused in Hcreate.
  unfold createScheduled, bind at 1, mapErr. rewrite Hnew.
  unfold bind at 1, stepWorld. rewrite Hcreate. rewrite bind_getSelf.
  cbn [IsAlreadyExists andb self].
  destruct (inActiveList _ w); [by destruct s1|done].
Qed.

(** C1 as first stated promises success for a tracked workload.  Here
    the workload of the template exists and its UID is in the active list;
    the creation fails with "already exists", and the cycle returns that
    error. *)
Lemma tracked_already_exists_fails :
  let s := mkSt Demo.trackedWorld Demo.trackedCron in
  ∃ w s1,
    newWorkloadFromTemplate Demo.label Demo.minute s = (Ok w, s1) ∧
    fst (apiCreate w (world s1)) = inl ErrAlreadyExists ∧
    inActiveList (Active (Status (self s1))) w = true ∧
    fst (createScheduled Demo.label Demo.everyMinute (Demo.minute + 5)
           Demo.minute s) = Err ErrAlreadyExists ∧
    fst (Reconcile Demo.parse Demo.label Demo.req Demo.trackedWorld)
      = Err ErrAlreadyExists.
Proof.
  eexists _, _. split; [vm_compute; reflexivity|]. vm_compute. done.
Qed.

Lemma createScheduled_already_exists_witness :
  createScheduled Demo.label Demo.everyMinute (Demo.minute + 5) Demo.minute
    (mkSt Demo.untrackedWorld Demo.untrackedCron) =
  (Err ErrAlreadyExists,
   mkSt (record (mkEvent EventTypeWarning "FailedCreate" Demo.fixedName)
           (record (mkEvent EventTypeNormal "OverridePolicy" Demo.fixedName)
              Demo.untrackedWorld))
        (setConcurrencyPolicy ConcurrentPolicyForbid Demo.untrackedCron)).
Proof.
  apply (createScheduled_already_exists Demo.label Demo.everyMinute
           (Demo.minute + 5) Demo.minute
           (mkSt Demo.untrackedWorld Demo.untrackedCron)
           (mkSt (record (mkEvent EventTypeNormal "OverridePolicy" Demo.fixedName)
                    Demo.untrackedWorld)
                 (setConcurrencyPolicy ConcurrentPolicyForbid Demo.untrackedCron))
           Demo.untrackedWorkload).
  - vm_compute. reflexivity.
  - vm_compute. reflexivity.
Defined.






(** ** A schedule that does not parse *)

(** C9. When the schedule expression fails to parse, the cycle treats it as
    an error of the user's spec, not as a transient one: it records an
    InvalidSchedule warning, creates and deletes nothing, and returns neither
    an error nor a wakeup hint. *)
Theorem scheduleNextIfPossible_invalid_schedule
    (ParseStandard : string → option (Z → Z)) (LabelCronName : string)
    (now : Time) (s : St) :
  ParseStandard (Schedule (Spec (self s))) = None →
  scheduleNextIfPossible ParseStandard LabelCronName now s =
    (Ok None,
     mkSt (record (mkEvent EventTypeWarning "InvalidSchedule"
                     (Schedule (Spec (self s))))
             (world s))
          (self s)) ∧
  storedWorkloads (snd (scheduleNextIfPossible ParseStandard LabelCronName now s))
    = storedWorkloads s ∧
  storedCron (snd (scheduleNextIfPossible ParseStandard LabelCronName now s))
    = storedCron s.
Proof.
  intros Hparse. unfold scheduleNextIfPossible.
  rewrite bind_getSelf, Hparse, bind_Eventf. done.
Qed.

Lemma scheduleNextIfPossible_invalid_schedule_witness :
  let s := mkSt Demo.brokenWorld Demo.brokenCron in
  scheduleNextIfPossible Demo.parse Demo.label (Demo.minute + 5) s =
    (Ok None,
     mkSt (record (mkEvent EventTypeWarning "InvalidSchedule" "every minute")
             Demo.brokenWorld)
          Demo.brokenCron) ∧
  storedWorkloads (snd (scheduleNextIfPossible Demo.parse Demo.label
                          (Demo.minute + 5) s)) = storedWorkloads s ∧
  storedCron (snd (scheduleNextIfPossible Demo.parse Demo.label
                     (Demo.minute + 5) s)) = storedCron s.
Proof.
  apply (scheduleNextIfPossible_invalid_schedule Demo.parse Demo.label
           (Demo.minute + 5) (mkSt Demo.brokenWorld Demo.brokenCron)).
  vm_compute. reflexivity.
Defined.

(** ** Where the reconciler departs from its contract *)

(** C3, at a failing input.  The cron records one active reference whose
    workload is gone from the store.  The trim pass signals the missing
    workload and drops the reference from the in-memory list, but then
    returns the not-found error: the cycle is aborted before any status
    update, the persisted active list still holds the reference, and the next
    cycle does the same again. *)
Theorem missing_workload_aborts_cycle :
  let r := Reconcile Demo.parse Demo.label Demo.req Demo.missingWorld in
  let trimmed := trimFinishedWorkloadsFromActiveList []
                   (mkSt Demo.missingWorld Demo.missingCron) in
  apiRead ("ml", "nightly-60") Demo.missingWorld = inl ErrNotFound ∧
  fst trimmed = Err ErrNotFound ∧
  Active (Status (self (snd trimmed))) = [] ∧
  fst r = Err ErrNotFound ∧
  w_events (snd r) = [mkEvent EventTypeNormal "MissingWorkload" "nightly-60"] ∧
  Active ∘ Status <$> w_cron (snd r) = Some [Demo.ref60] ∧
  fst (Reconcile Demo.parse Demo.label Demo.req (snd r)) = Err ErrNotFound.
Proof. vm_compute. done. Qed.

(** C2, at a failing input.  Under the Replace policy one workload is still
    active when the next firing is due, and the store refuses to delete it.
    [deleteWorkload] logs the error and reports a successful deletion; the
    cycle goes on, creates the new workload and returns without error, while
    the old workload is still in the store. *)
Theorem replace_creates_after_failed_delete :
  let r := Reconcile Demo.parse Demo.label Demo.req Demo.replaceWorld in
  fst (apiDelete Demo.job60 Demo.replaceWorld) = Some (ErrOther 1) ∧
  fst r = Ok (Some (Demo.minute - 5)) ∧
  w_workloads (snd r) !! ("ml", "nightly-60") = Some Demo.job60 ∧
  is_Some (w_workloads (snd r) !! ("ml", "nightly-120")) ∧
  Active ∘ Status <$> w_cron (snd r) = Some [Demo.ref "nightly-120" "uid-0"] ∧
  evReason <$> w_events (snd r) = ["SuccessfulDelete"; "SuccessfulCreate"].
Proof. vm_compute. repeat split; eauto. Qed.

(** C6, at a failing input.  The history limit is 1, two workloads are
    observed, and the store refuses to delete the older one.  The fold
    returns without error, the older entry is dropped from the persisted
    history (and its reference from the active list), and its workload is
    still in the store. *)
Theorem history_entry_dropped_after_failed_delete :
  let run := updateCronHistory [Demo.job60; Demo.job120]
               (mkSt Demo.limitWorld Demo.limitCron) in
  fst (apiDelete Demo.job60 Demo.limitWorld) = Some (ErrOther 1) ∧
  fst run = Ok tt ∧
  (λ c, Name ∘ hObject <$> History (Status c)) <$> storedCron (snd run)
    = Some ["nightly-120"] ∧
  Active ∘ Status <$> storedCron (snd run) = Some [Demo.ref120] ∧
  storedWorkloads (snd run) !! ("ml", "nightly-60") = Some Demo.job60.
Proof. vm_compute. done. Qed.

(** C8, at a failing input.  The declared policy is Allow, the template names
    the workload, and one workload is still active when the next firing is
    due.  The policy gate runs before the template is looked at, so the
    firing is not skipped: a second workload is created next to the active
    one.  The override to Forbid is made on the in-memory object after the
    gate and is not part of the status update; the persisted policy is still
    Allow, and the following due time passes the gate again. *)
Theorem fixed_name_does_not_forbid :
  let r := Reconcile Demo.parse Demo.label Demo.req Demo.fixedWorld in
  let later := mkWorld (w_cron (snd r)) (w_workloads (snd r)) [] 1
                 (3 * Demo.minute + 5) Demo.noFault in
  wName <$> tplObject (Template (Spec Demo.fixedCron)) = Some Demo.fixedName ∧
  fst r = Ok (Some (Demo.minute - 5)) ∧
  Active ∘ Status <$> w_cron (snd r)
    = Some [Demo.ref60; Demo.ref Demo.fixedName "uid-0"] ∧
  evReason <$> w_events (snd r) = ["OverridePolicy"; "SuccessfulCreate"] ∧
  ConcurrencyPolicy_ ∘ Spec <$> w_cron (snd r) = Some ConcurrentPolicyAllow ∧
  fst (Reconcile Demo.parse Demo.label Demo.req later) = Err ErrAlreadyExists ∧
  evReason <$> w_events (snd (Reconcile Demo.parse Demo.label Demo.req later))
    = ["OverridePolicy"; "FailedCreate"].
Proof. vm_compute. done. Qed.

(** ** Running the scheduling step again *)

Lemma walkSchedule_next (schedule : Z → Z) (now : Time) (fuel : nat)
    (c : Time) (m : option Time) (t : Time) :
  (∀ t', m = Some t' → c = schedule t') →
  walkSchedule schedule now fuel c m = Some (Some t) → now < schedule t.
Proof.
  revert c m. induction fuel as [|fuel IH]; intros c m Hm; simpl.
  - destruct (Z.ltb_spec now c); [|done]. intros [= ->].
    by rewrite <- (Hm t).
  - destruct (Z.ltb_spec now c).
    + intros [= ->]. by rewrite <- (Hm t).
    + apply IH. by intros t' [= ->].
Qed.

Lemma getNextScheduleTime_run (now : Time) (schedule : Z → Z) (s : St) :
  getNextScheduleTime now schedule s =
  match walkSchedule schedule now 100 (schedule (earliestTime (self s))) None with
  | Some t => (Ok (inr t), s)
  | None =>
      (Ok (inr None),
       mkSt (record (mkEvent EventTypeWarning "TooManyMissedTimes"
                       (Schedule (Spec (self s))))
               (world s))
            (self s))
  end.
Proof.
  unfold getNextScheduleTime. rewrite bind_getSelf.
  by destruct (walkSchedule _ _ _ _ _).
Qed.

(** Once the last-fired time is the most recent occurrence that is due (the
    next occurrence after it lies after now), the evaluator finds nothing
    due. *)
Lemma getNextScheduleTime_fired (now : Time) (schedule : Z → Z) (s : St)
    (t : Time) :
  LastScheduleTime (Status (self s)) = Some t → now < schedule t →
  getNextScheduleTime now schedule s = (Ok (inr None), s).
Proof.
  intros Hlast Hnext. rewrite getNextScheduleTime_run.
  unfold earliestTime. rewrite Hlast.
  change (walkSchedule schedule now 100 (schedule t) None)
    with (if now <? schedule t then Some None
          else walkSchedule schedule now 99 (schedule (schedule t))
                 (Some (schedule t))).
  destruct (Z.ltb_spec now (schedule t)); [done|lia].
Qed.

Lemma deleteWorkload_storedCron (ref : ObjectReference) :
  stable storedCron (deleteWorkload ref).
Proof.
  unfold deleteWorkload. apply stable_bind; [done|]. intros cron.
  destruct (newEmptyWorkload cron); [done|].
  apply stable_bind; [done|]. intros [err|workload].
  - destruct (IsNotFound err); [|done].
    apply stable_bind; [by apply stable_modifySelf|done].
  - apply stable_bind; [by apply stable_modifySelf|]. intros _.
    apply stable_bind.
    + apply stable_stepWorld. intros w0 c0. unfold apiDelete.
      destruct (w_fault w0 _); [done|]. by destruct (w_workloads w0 !! _).
    + intros _. apply stable_bind; [by apply stable_Eventf|done].
Qed.

Lemma deleteWorkloads_storedCron (refs : list ObjectReference) :
  stable storedCron (deleteWorkloads refs).
Proof.
  induction refs as [|ref rest IH]; simpl; [done|].
  apply stable_bind; [apply deleteWorkload_storedCron|done].
Qed.

Lemma newWorkloadFromTemplate_storedCron (LabelCronName : string) (t : Time) :
  stable storedCron (newWorkloadFromTemplate LabelCronName t).
Proof.
  unfold newWorkloadFromTemplate. apply stable_bind; [done|]. intros cron.
  destruct (newEmptyWorkload cron) as [|w]; [done|].
  apply stable_bind.
  - case_decide; [done|].
    apply stable_bind; [by apply stable_Eventf|]. intros _.
    apply stable_bind; [by apply stable_modifySelf|done].
  - intros w'. by destruct (SetControllerReference _ _).
Qed.

Lemma apiCreate_w_cron (o : Workload) (w : World) :
  w_cron (snd (apiCreate o w)) = w_cron w.
Proof.
  unfold apiCreate. destruct (w_fault w _); [done|].
  destruct (storedName o w); [|done]. by destruct (w_workloads w !! _).
Qed.

(** A creation that went through leaves the last-fired time at the fired
    time, on an in-memory object refreshed from the stored one. *)
Lemma createScheduled_ok (LabelCronName : string) (schedule : Z → Z)
    (now t : Time) (s s1 : St) (h : option Duration) :
  createScheduled LabelCronName schedule now t s = (Ok h, s1) →
  h = nextScheduledTimeDuration schedule now ∧
  ∃ stored, storedCron s = Some stored ∧ Spec (self s1) = Spec stored ∧
            LastScheduleTime (Status (self s1)) = Some t.
Proof.
  unfold createScheduled, bind at 1, mapErr.
  pose proof (newWorkloadFromTemplate_storedCron LabelCronName t s) as Hnew.
  destruct (newWorkloadFromTemplate LabelCronName t s) as [[w| |] sa];
    [|done..]. simpl in Hnew.
  unfold bind at 1, stepWorld.
  pose proof (apiCreate_w_cron w (world sa)) as Hcreate.
  destruct (apiCreate w (world sa)) as [[err|created] wb]; simpl in Hcreate.
  { rewrite bind_getSelf. by destruct (_ && _). }
  rewrite bind_Eventf, !bind_modifySelf. unfold bind at 1.
  match goal with |- context [statusUpdate ?x] =>
    destruct (statusUpdate_cases x) as [[e ->]|[stored [Hstored ->]]] end;
    [done|].
  unfold ret. simpl. intros [= <- <-]. split; [done|].
  exists stored. split; [|done].
  simpl in Hstored. unfold record in Hstored; simpl in Hstored.
  unfold storedCron in *. congruence.
Qed.

(** The guard of [scheduleNextIfPossible]: a due time equal to the last-fired
    time starts nothing. *)
Lemma startScheduled_already_fired (LabelCronName : string) (schedule : Z → Z)
    (now t : Time) (s : St) :
  LastScheduleTime (Status (self s)) = Some t →
  startScheduled LabelCronName schedule now (Some t) s =
    (Ok (nextScheduledTimeDuration schedule now), s).
Proof.
  intros Hlast. unfold startScheduled. rewrite bind_getSelf, Hlast.
  unfold timeEqual. by rewrite Z.eqb_refl.
Qed.

Lemma scheduleNextIfPossible_nothing_due
    (ParseStandard : string → option (Z → Z)) (LabelCronName : string)
    (now t : Time) (schedule : Z → Z) (s : St) :
  ParseStandard (Schedule (Spec (self s))) = Some schedule →
  LastScheduleTime (Status (self s)) = Some t → now < schedule t →
  scheduleNextIfPossible ParseStandard LabelCronName now s =
    (Ok (nextScheduledTimeDuration schedule now), s).
Proof.
  intros Hparse Hlast Hnext. unfold scheduleNextIfPossible.
  rewrite bind_getSelf, Hparse. unfold bind at 1.
  by rewrite (getNextScheduleTime_fired now schedule s t).
Qed.

Lemma scheduleNextIfPossible_rerun
    (ParseStandard : string → option (Z → Z)) (LabelCronName : string)
    (now : Time) (s s1 : St) (h : option Duration) :
  (∀ c, storedCron s = Some c → Spec c = Spec (self s)) →
  scheduleNextIfPossible ParseStandard LabelCronName now s = (Ok h, s1) →
  ∃ s2,
    scheduleNextIfPossible ParseStandard LabelCronName now s1 = (Ok h, s2) ∧
    self s2 = self s1 ∧ storedCron s2 = storedCron s1 ∧
    storedWorkloads s2 = storedWorkloads s1.
Proof.
  intros Hspec. unfold scheduleNextIfPossible at 1. rewrite bind_getSelf.
  destruct (ParseStandard _) as [schedule|] eqn:Hparse.
  2:{ (* the expression does not parse: the same warning again *)
    rewrite bind_Eventf. intros [= <- <-]. eexists. split.
    { unfold scheduleNextIfPossible. rewrite bind_getSelf. cbn [self].
      rewrite Hparse, bind_Eventf. reflexivity. }
    done. }
  unfold bind at 1. rewrite getNextScheduleTime_run.
  destruct (walkSchedule _ _ _ _ _) as [[t|]|] eqn:Hwalk.
  3:{ (* too many missed occurrences: the same signal again *)
    unfold startScheduled. rewrite bind_getSelf. unfold ret. intros [= <- <-].
    eexists. split.
    { unfold scheduleNextIfPossible. rewrite bind_getSelf. cbn [self].
      rewrite Hparse. unfold bind at 1. rewrite getNextScheduleTime_run.
      cbn [self]. rewrite Hwalk. reflexivity. }
    done. }
  2:{ (* nothing due: the state is untouched *)
    unfold startScheduled. rewrite bind_getSelf. unfold ret. intros [= <- <-].
    exists s. split; [|done].
    unfold scheduleNextIfPossible. rewrite bind_getSelf, Hparse.
    unfold bind at 1. by rewrite getNextScheduleTime_run, Hwalk. }
  pose proof (walkSchedule_next schedule now 100 _ None t
                ltac:(done) Hwalk) as Hnext.
  unfold startScheduled. rewrite bind_getSelf.
  destruct (timeEqual _ _) eqn:Hguard.
  { (* the guard: the state is untouched *)
    unfold ret. intros [= <- <-]. exists s. split; [|done].
    unfold scheduleNextIfPossible. rewrite bind_getSelf, Hparse.
    unfold bind at 1. rewrite getNextScheduleTime_run, Hwalk.
    unfold startScheduled. by rewrite bind_getSelf, Hguard. }
  case_decide as Hforbid.
  { (* skipped under Forbid: the same skip again *)
    rewrite bind_Eventf. unfold ret. intros [= <- <-]. eexists. split.
    { unfold scheduleNextIfPossible. rewrite bind_getSelf. cbn [self].
      rewrite Hparse. unfold bind at 1. rewrite getNextScheduleTime_run.
      cbn [self]. rewrite Hwalk.
      unfold startScheduled. rewrite bind_getSelf. cbn [self].
      rewrite Hguard, decide_True by done. rewrite bind_Eventf. reflexivity. }
    done. }
  (* fired: the last-fired time is now the due time *)
  unfold bind at 1.
  set (del := if decide (ConcurrencyPolicy_ (Spec (self s)) = ConcurrentPolicyReplace)
              then deleteWorkloads (Active (Status (self s))) else ret tt).
  assert (Hdel : stable storedCron del).
  { unfold del. case_decide; [apply deleteWorkloads_storedCron|done]. }
  specialize (Hdel s). destruct (del s) as [[[]| |] sa]; [|done..].
  simpl in Hdel.
  intros [-> [stored [Hstored [Hsp Hlast]]]]%createScheduled_ok.
  exists s1. split; [|done].
  apply (scheduleNextIfPossible_nothing_due _ _ _ t); [|done..].
  rewrite Hsp, (Hspec stored) by congruence. done.
Qed.

(** ** A cycle with nothing due *)

Lemma keeps_bind {A B} (I : St → Prop) (m : M A) (k : A → M B) :
  keeps I m → (∀ a, keeps I (k a)) → keeps I (bind m k).
Proof.
  intros Hm Hk s HI. unfold bind. specialize (Hm s HI).
  destruct (m s) as [[a| |] s']; simpl in *; [|done..].
  by apply Hk.
Qed.

Lemma keeps_stable {A} (I : St → Prop) (m : M A) :
  stable (λ s, s) m → keeps I m.
Proof. intros Hm s HI. by rewrite Hm. Qed.

Section NothingDue.
Context (now : Time) (sp : CronSpec) (t : Time)
  (initial : gmap (string * string) Workload).

Lemma keeps_modifySelf (f : Cron → Cron) :
  (∀ c, Spec (f c) = Spec c) →
  (∀ c, LastScheduleTime (Status (f c)) = LastScheduleTime (Status c)) →
  keeps (nothingDue now sp t initial) (modifySelf f).
Proof.
  intros Hsp Hlast [w c] (? & ? & ? & ? & ?). unfold nothingDue; simpl in *.
  by rewrite Hsp, Hlast.
Qed.

Lemma keeps_Eventf ty reason note :
  keeps (nothingDue now sp t initial) (Eventf ty reason note).
Proof. by intros [w c] (? & ? & ? & ? & ?). Qed.

Lemma keeps_statusUpdate : keeps (nothingDue now sp t initial) statusUpdate.
Proof.
  intros s HI. destruct (statusUpdate_cases s) as [[e ->]|[stored [Hst ->]]];
    [done|].
  destruct HI as (? & ? & ? & ? & Hstored). destruct (Hstored _ Hst) as [? ?].
  unfold nothingDue, storedCron, storedWorkloads in *; simpl.
  split_and!; try done. by intros c' [= <-].
Qed.

Lemma keeps_deleteWorkload (ref : ObjectReference) :
  keeps (nothingDue now sp t initial) (deleteWorkload ref).
Proof.
  unfold deleteWorkload. apply keeps_bind; [by apply keeps_stable|].
  intros cron. destruct (newEmptyWorkload cron); [by apply keeps_stable|].
  apply keeps_bind; [by apply keeps_stable|]. intros [err|workload].
  - destruct (IsNotFound err); [|by apply keeps_stable].
    apply keeps_bind; [by apply keeps_modifySelf|]. intros _.
    by apply keeps_stable.
  - apply keeps_bind; [by apply keeps_modifySelf|]. intros _.
    apply keeps_bind.
    + intros [w0 c0] (? & Hsub & ? & ? & ?). unfold stepWorld, apiDelete; simpl.
      destruct (w_fault w0 _); [done|].
      destruct (w_workloads w0 !! _); [|done].
      unfold nothingDue, storedWorkloads in *; simpl in *.
      split_and!; try done. etrans; [apply delete_subseteq|done].
    + intros _. apply keeps_bind; [apply keeps_Eventf|]. intros _.
      by apply keeps_stable.
Qed.

Lemma keeps_deleteTruncated (toTruncate : list CronHistory) :
  keeps (nothingDue now sp t initial) (deleteTruncated toTruncate).
Proof.
  induction toTruncate as [|h rest IH]; simpl; [by apply keeps_stable|].
  apply keeps_bind; [by apply keeps_stable|]. intros cron.
  destruct (truncateRef cron h); [|by apply keeps_stable].
  apply keeps_bind; [apply keeps_deleteWorkload|done].
Qed.

Lemma keeps_updateCronHistory (workloads : list Workload) :
  keeps (nothingDue now sp t initial) (updateCronHistory workloads).
Proof.
  unfold updateCronHistory. apply keeps_bind; [by apply keeps_stable|].
  intros cron. case_decide; [|by apply keeps_stable].
  apply keeps_bind; [by apply keeps_modifySelf|]. intros _.
  apply keeps_bind; [by apply keeps_modifySelf|]. intros _.
  unfold truncateHistory. apply keeps_bind; [by apply keeps_stable|].
  intros cron'. destruct (HistoryLimit _); [|apply keeps_statusUpdate].
  case_decide; [|apply keeps_statusUpdate].
  case_decide; [by apply keeps_stable|].
  apply keeps_bind; [apply keeps_deleteTruncated|]. intros _.
  apply keeps_bind; [by apply keeps_modifySelf|]. intros _.
  apply keeps_statusUpdate.
Qed.

Lemma listActiveLoop_stable (cron : Cron) (active : list ObjectReference)
    (workloads : list Workload) :
  stable (λ s, s) (listActiveLoop cron active workloads).
Proof.
  revert workloads. induction active as [|ref rest IH]; intros workloads;
    simpl; [done|].
  destruct (newEmptyWorkload cron); [done|].
  apply stable_bind; [done|]. intros [err|workload]; [|done].
  by destruct (IsNotFound err).
Qed.

Lemma keeps_updateCurrent (latest : option Cron) (uid : string) :
  keeps (nothingDue now sp t initial) (updateCurrent latest (deleteFromActiveList uid)).
Proof.
  destruct latest; simpl; [by apply keeps_stable|].
  apply keeps_bind; [by apply keeps_modifySelf|]. intros _.
  by apply keeps_stable.
Qed.

Lemma keeps_currentCron (latest : option Cron) :
  keeps (nothingDue now sp t initial) (currentCron latest).
Proof. destruct latest; by apply keeps_stable. Qed.

Lemma keeps_trimObserved (workloads : list Workload) (latest : option Cron)
    (knownActive : gset string) :
  keeps (nothingDue now sp t initial) (trimObserved workloads latest knownActive).
Proof.
  revert latest knownActive.
  induction workloads as [|w rest IH]; intros latest knownActive; simpl;
    [by apply keeps_stable|].
  apply keeps_bind; [apply keeps_currentCron|]. intros cron.
  destruct (negb _ && negb _).
  - apply keeps_bind; [by apply keeps_stable|]. intros [err|latestCron];
      [by apply keeps_stable|].
    destruct (inActiveList _ _); [done|].
    apply keeps_bind; [apply keeps_Eventf|done].
  - destruct (_ && _); [|done].
    apply keeps_bind; [apply keeps_updateCurrent|]. intros latest'.
    apply keeps_bind; [apply keeps_Eventf|done].
Qed.

Lemma keeps_trimMissing (refs : list ObjectReference) (latest : option Cron)
    (knownActive : gset string) :
  keeps (nothingDue now sp t initial) (trimMissing refs latest knownActive).
Proof.
  induction refs as [|objRef rest IH]; simpl; [by apply keeps_stable|].
  case_decide; [done|].
  apply keeps_bind; [apply keeps_currentCron|]. intros cron.
  destruct (newEmptyWorkload cron); [done|].
  apply keeps_bind; [by apply keeps_stable|]. intros [err|wl]; [|done].
  apply keeps_bind; [|intros _; by apply keeps_stable].
  destruct (IsNotFound err); [|by apply keeps_stable].
  apply keeps_bind; [apply keeps_Eventf|]. intros _.
  apply keeps_bind; [apply keeps_updateCurrent|]. intros _.
  by apply keeps_stable.
Qed.

Lemma keeps_trim (workloads : list Workload) :
  keeps (nothingDue now sp t initial) (trimFinishedWorkloadsFromActiveList workloads).
Proof.
  unfold trimFinishedWorkloadsFromActiveList.
  apply keeps_bind; [apply keeps_trimObserved|]. intros seen.
  apply keeps_bind; [apply keeps_currentCron|]. intros cron.
  apply keeps_trimMissing.
Qed.

Lemma keeps_scheduleNextIfPossible
    (ParseStandard : string → option (Z → Z)) (LabelCronName : string)
    (schedule : Z → Z) :
  ParseStandard (Schedule sp) = Some schedule → now < schedule t →
  keeps (nothingDue now sp t initial)
    (scheduleNextIfPossible ParseStandard LabelCronName now).
Proof.
  intros Hparse Hnext s HI.
  rewrite (scheduleNextIfPossible_nothing_due _ _ _ t schedule); [done|..].
  - destruct HI as (_ & _ & -> & _). done.
  - by destruct HI as (_ & _ & _ & ? & _).
  - done.
Qed.

Lemma keeps_syncCron
    (ParseStandard : string → option (Z → Z)) (LabelCronName : string)
    (schedule : Z → Z) (workloads : list Workload) :
  ParseStandard (Schedule sp) = Some schedule → now < schedule t →
  keeps (nothingDue now sp t initial)
    (syncCron ParseStandard LabelCronName workloads).
Proof.
  intros Hparse Hnext s HI. unfold syncCron. rewrite bind_readWorld.
  replace (w_now (world s)) with now by (by destruct HI as (-> & _)).
  revert s HI. apply keeps_bind; [apply keeps_trim|]. intros _.
  apply keeps_bind; [apply keeps_statusUpdate|]. intros _.
  apply keeps_bind; [by apply keeps_stable|]. intros cron.
  destruct (bool_decide _); [by apply keeps_stable|].
  destruct (bool_decide _); [by apply keeps_stable|].
  destruct (Deadline _) as [deadline|];
    [|by apply (keeps_scheduleNextIfPossible _ _ schedule)].
  destruct (deadline <? now);
    [|by apply (keeps_scheduleNextIfPossible _ _ schedule)].
  apply keeps_bind; [apply keeps_Eventf|]. intros _. by apply keeps_stable.
Qed.

Lemma keeps_reconcileLoaded
    (ParseStandard : string → option (Z → Z)) (LabelCronName : string)
    (schedule : Z → Z) :
  ParseStandard (Schedule sp) = Some schedule → now < schedule t →
  keeps (nothingDue now sp t initial)
    (reconcileLoaded ParseStandard LabelCronName).
Proof.
  intros Hparse Hnext. unfold reconcileLoaded.
  apply keeps_bind.
  { apply keeps_stable. unfold listActiveWorkloads.
    apply stable_bind; [done|]. intros cron. apply listActiveLoop_stable. }
  intros actives. apply keeps_bind; [apply keeps_updateCronHistory|].
  intros _. by apply (keeps_syncCron _ _ schedule).
Qed.

End NothingDue.

(** When the persisted last-fired time is the most recent due occurrence, a
    whole cycle creates no workload and leaves the last-fired time alone,
    whatever the store answers on the way. *)
Lemma Reconcile_nothing_due
    (ParseStandard : string → option (Z → Z)) (LabelCronName : string)
    (req : string * string) (w : World) (c : Cron) (schedule : Z → Z)
    (t : Time) :
  w_cron w = Some c →
  ParseStandard (Schedule (Spec c)) = Some schedule →
  LastScheduleTime (Status c) = Some t → w_now w < schedule t →
  w_workloads (snd (Reconcile ParseStandard LabelCronName req w))
    ⊆ w_workloads w ∧
  ∀ c', w_cron (snd (Reconcile ParseStandard LabelCronName req w)) = Some c' →
        LastScheduleTime (Status c') = Some t.
Proof.
  intros Hc Hparse Hlast Hnext. unfold Reconcile, apiGetCron. rewrite Hc.
  assert (Hsame : w_workloads w ⊆ w_workloads w ∧
                  ∀ c', w_cron w = Some c' →
                        LastScheduleTime (Status c') = Some t).
  { split; [done|]. intros c' Hc'. congruence. }
  destruct (w_fault w OpGetCron) as [e|]; [by destruct (IsNotFound e)|].
  case_decide; [|done].
  pose proof (keeps_reconcileLoaded (w_now w) (Spec c) t (w_workloads w)
                ParseStandard LabelCronName schedule Hparse Hnext
                (mkSt w c)) as Hkeeps.
  destruct (reconcileLoaded _ _ (mkSt w c)) as [r s']. simpl in *.
  destruct Hkeeps as (_ & Hsub & _ & _ & Hstored).
  { unfold nothingDue, storedCron, storedWorkloads; simpl.
    split_and!; try done. intros c' Hc'. by simplify_eq. }
  split; [done|]. intros c' Hc'. by apply Hstored.
Qed.

(** ** The history fold adds no duplicate *)

Lemma refreshHistory_key (newHistory old : CronHistory) :
  historyKey (refreshHistory newHistory old) = historyKey old.
Proof. done. Qed.

Lemma alter_historyKey (f : CronHistory → CronHistory) (idx : nat)
    (hs : list CronHistory) :
  (∀ h, historyKey (f h) = historyKey h) →
  historyKey <$> alter f idx hs = historyKey <$> hs.
Proof.
  intros Hf. revert idx. induction hs as [|h hs IH]; intros [|idx]; simpl;
    try done.
  - by rewrite Hf.
  - f_equal. apply IH.
Qed.

Lemma foldWorkloads_NoDup (apiVersion kind : string) (hs : list CronHistory)
    (workloads : list Workload) :
  NoDup (historyKey <$> hs) →
  NoDup ((λ w, historyKey (workloadToHistory w apiVersion kind)) <$> workloads) →
  NoDup (historyKey <$> foldWorkloads apiVersion kind hs workloads).
Proof.
  intros Hhs. unfold foldWorkloads.
  set (index := indexHistory 0 hs ∅).
  set (wkey := λ w, historyKey (workloadToHistory w apiVersion kind)).
  assert (Hinv : ∀ k, k ∈ historyKey <$> hs →
                      k ∈ historyKey <$> hs ∨ k ∉ wkey <$> workloads) by auto.
  revert Hhs Hinv. generalize hs at 1 2 4 as cur.
  induction workloads as [|w ws IH]; intros cur Hcur Hinv Hws; simpl; [done|].
  apply NoDup_cons in Hws as [Hw Hws].
  apply IH; [| |done]; unfold foldWorkload; fold (wkey w);
    destruct (index !! wkey w) as [idx|] eqn:Hidx.
  - rewrite alter_historyKey by done. done.
  - rewrite fmap_app. apply NoDup_app. split; [done|]. split.
    + intros k Hk [->|[]%elem_of_nil]%elem_of_cons.
      destruct (Hinv _ Hk) as [Hin|Hnot].
      * apply list_elem_of_fmap in Hin as [h [Hkh Hin]].
        by destruct (indexHistory_None _ _ _ _ Hidx h Hin).
      * apply Hnot. simpl. left.
    + apply NoDup_singleton.
  - rewrite alter_historyKey by done. intros k Hk.
    destruct (Hinv k Hk) as [?|Hnot]; [auto|]. right.
    intros ?. apply Hnot. simpl. by right.
  - rewrite fmap_app. intros k [Hk|[->|[]%elem_of_nil]%elem_of_cons]%elem_of_app.
    + destruct (Hinv k Hk) as [?|Hnot]; [auto|]. right.
      intros ?. apply Hnot. simpl. by right.
    + by right.
Qed.

(** C7 as first stated asks the second of two cycles in a row to leave
    the persisted state as the first left it.  Here the first cycle fires;
    the second, with nothing changed outside, creates nothing but folds the
    workload just created into the history, so the persisted cron differs.
    From then on the state stays put. *)
Lemma reconcile_twice_changes_history :
  let r1 := Reconcile Demo.parse Demo.label Demo.req Demo.freshWorld in
  let r2 := Reconcile Demo.parse Demo.label Demo.req (snd r1) in
  let r3 := Reconcile Demo.parse Demo.label Demo.req (snd r2) in
  fst r1 = Ok (Some (Demo.minute - 5)) ∧
  fst r2 = Ok (Some (Demo.minute - 5)) ∧
  fst <$> map_to_list (w_workloads (snd r1)) = [("ml", "nightly-60")] ∧
  fst <$> map_to_list (w_workloads (snd r2)) = [("ml", "nightly-60")] ∧
  History ∘ Status <$> w_cron (snd r1) = Some [] ∧
  (λ c, Name ∘ hObject <$> History (Status c)) <$> w_cron (snd r2)
    = Some ["nightly-60"] ∧
  History ∘ Status <$> w_cron (snd r2) ≠ History ∘ Status <$> w_cron (snd r1) ∧
  w_cron (snd r3) = w_cron (snd r2).
Proof.
  vm_compute. do 6 (split; [reflexivity|]). split; [|reflexivity].
  intros Heq. discriminate Heq.
Qed.

(** C7 (amended). Running the cycle again with nothing changed in between
    never repeats a firing.  (1) A due time equal to the last-fired time
    starts nothing.  (2) When the last-fired time is the most recent due
    occurrence (the next occurrence after it lies after now), the scheduling
    step creates nothing, changes nothing and only returns the next-wakeup
    hint, and (3) a whole cycle creates no workload and leaves the persisted
    last-fired time alone.  (4) After a scheduling step that returned without
    error on a cron loaded from the store, a second step at the same clock
    reading returns the same hint, creates no workload and leaves the
    persisted cron and the workload store as the first step left them.
    (5) The history fold adds no duplicate: if the history and the observed
    workloads each have distinct keys, so has the folded history.  The whole
    cycle need not leave the persisted state equal: the cycle after a firing
    adds the history entry of the workload just created. *)
Theorem scheduling_is_idempotent
    (ParseStandard : string → option (Z → Z)) (LabelCronName : string)
    (now : Time) :
  (∀ (schedule : Z → Z) (t : Time) (s : St),
     LastScheduleTime (Status (self s)) = Some t →
     startScheduled LabelCronName schedule now (Some t) s =
       (Ok (nextScheduledTimeDuration schedule now), s)) ∧
  (∀ (schedule : Z → Z) (t : Time) (s : St),
     ParseStandard (Schedule (Spec (self s))) = Some schedule →
     LastScheduleTime (Status (self s)) = Some t → now < schedule t →
     scheduleNextIfPossible ParseStandard LabelCronName now s =
       (Ok (nextScheduledTimeDuration schedule now), s)) ∧
  (∀ (req : string * string) (w : World) (c : Cron) (schedule : Z → Z)
     (t : Time),
     w_now w = now → w_cron w = Some c →
     ParseStandard (Schedule (Spec c)) = Some schedule →
     LastScheduleTime (Status c) = Some t → now < schedule t →
     w_workloads (snd (Reconcile ParseStandard LabelCronName req w))
       ⊆ w_workloads w ∧
     ∀ c', w_cron (snd (Reconcile ParseStandard LabelCronName req w)) = Some c' →
           LastScheduleTime (Status c') = Some t) ∧
  (∀ (s s1 : St) (h : option Duration),
     (∀ c, storedCron s = Some c → Spec c = Spec (self s)) →
     scheduleNextIfPossible ParseStandard LabelCronName now s = (Ok h, s1) →
     ∃ s2,
       scheduleNextIfPossible ParseStandard LabelCronName now s1 = (Ok h, s2) ∧
       self s2 = self s1 ∧ storedCron s2 = storedCron s1 ∧
       storedWorkloads s2 = storedWorkloads s1) ∧
  (∀ (apiVersion kind : string) (hs : list CronHistory)
     (workloads : list Workload),
     NoDup (historyKey <$> hs) →
     NoDup ((λ w, historyKey (workloadToHistory w apiVersion kind)) <$> workloads) →
     NoDup (historyKey <$> foldWorkloads apiVersion kind hs workloads)).
Proof.
  split_and!.
  - intros. by apply startScheduled_already_fired.
  - intros. by apply (scheduleNextIfPossible_nothing_due _ _ _ t).
  - intros req w c schedule t <- ? ? ? ?.
    by apply (Reconcile_nothing_due _ _ _ _ c schedule).
  - intros. by apply (scheduleNextIfPossible_rerun _ _ _ s).
  - intros. by apply foldWorkloads_NoDup.
Qed.

Lemma scheduling_is_idempotent_witness :
  startScheduled Demo.label Demo.everyMinute (Demo.minute + 5)
    (Some Demo.minute) Demo.firedState =
    (Ok (Some (Demo.minute - 5)), Demo.firedState) ∧
  scheduleNextIfPossible Demo.parse Demo.label (Demo.minute + 5) Demo.firedState =
    (Ok (Some (Demo.minute - 5)), Demo.firedState) ∧
  (w_workloads (snd (Reconcile Demo.parse Demo.label Demo.req
                       (world Demo.firedState)))
     ⊆ w_workloads (world Demo.firedState) ∧
   ∀ c', w_cron (snd (Reconcile Demo.parse Demo.label Demo.req
                        (world Demo.firedState))) = Some c' →
         LastScheduleTime (Status c') = Some Demo.minute) ∧
  (∃ s2,
     scheduleNextIfPossible Demo.parse Demo.label (Demo.minute + 5)
       Demo.afterFirstMinute = (Ok (Some (Demo.minute - 5)), s2) ∧
     self s2 = self Demo.afterFirstMinute ∧
     storedCron s2 = storedCron Demo.afterFirstMinute ∧
     storedWorkloads s2 = storedWorkloads Demo.afterFirstMinute) ∧
  NoDup (historyKey <$> foldWorkloads "kubeflow.org/v1" "TFJob"
                          [Demo.failedEntry] [Demo.failedAgain]).
Proof.
  destruct (scheduling_is_idempotent Demo.parse Demo.label (Demo.minute + 5))
    as (Hguard & Hdue & Hcycle & Hrerun & Hfold).
  split_and!.
  - apply (Hguard Demo.everyMinute Demo.minute Demo.firedState). reflexivity.
  - apply (Hdue Demo.everyMinute Demo.minute Demo.firedState).
    + reflexivity.
    + reflexivity.
    + vm_compute. reflexivity.
  - apply (Hcycle Demo.req (world Demo.firedState) Demo.firedCron
             Demo.everyMinute Demo.minute).
    + reflexivity.
    + reflexivity.
    + reflexivity.
    + reflexivity.
    + vm_compute. reflexivity.
  - apply (Hcycle Demo.req (world Demo.firedState) Demo.firedCron
             Demo.everyMinute Demo.minute).
    + reflexivity.
    + reflexivity.
    + reflexivity.
    + reflexivity.
    + vm_compute. reflexivity.
  - apply (Hrerun (mkSt Demo.freshWorld Demo.freshCron) Demo.afterFirstMinute
             (Some (Demo.minute - 5))).
    + intros c Hc. injection Hc as <-. reflexivity.
    + vm_compute. reflexivity.
  - apply Hfold; apply NoDup_singleton.
Defined.

(** * Further properties of the reconciler *)

(** ** What the bookkeeping of a cycle keeps *)

Lemma leads_bind {A B} (I K J : St → Prop) (m : M A) (k : A → M B) :
  leads I K m → (∀ s, K s → J s) → (∀ a, leads K J (k a)) →
  leads I J (bind m k).
Proof.
  intros Hm HKJ Hk s HI. unfold bind. specialize (Hm s HI).
  destruct (m s) as [[a| |] s']; simpl in *; [by apply Hk|by apply HKJ..].
Qed.

Lemma keeps_of_stable {A X} (f : St → X) (P : X → Prop) (m : M A) :
  stable f m → keeps (λ s, P (f s)) m.
Proof. intros Hm s HP. by rewrite Hm. Qed.

(** An invariant that survives the writes the bookkeeping makes (to the
    active list and the history of the in-memory cron, to the event log, to
    the store by a deletion, and to the stored status) survives the
    bookkeeping: listing the active workloads, folding them into the history,
    trimming the active list, and updating the status. *)
Section Bookkeeping.
Context (I : St → Prop).
Hypothesis I_setActive : ∀ w c a, I (mkSt w c) → I (mkSt w (setActive a c)).
Hypothesis I_setHistory : ∀ w c h, I (mkSt w c) → I (mkSt w (setHistory h c)).
Hypothesis I_record : ∀ w c e, I (mkSt w c) → I (mkSt (record e w) c).
Hypothesis I_delete : ∀ w c k,
  I (mkSt w c) →
  I (mkSt (mkWorld (w_cron w) (delete k (w_workloads w)) (w_events w)
             (w_nextUID w) (w_now w) (w_fault w)) c).
Hypothesis I_status : ∀ w c stored,
  I (mkSt w c) → w_cron w = Some stored →
  I (mkSt (mkWorld (Some (setStatus (Status c) stored)) (w_workloads w)
             (w_events w) (w_nextUID w) (w_now w) (w_fault w))
          (setStatus (Status c) stored)).

Lemma kept_untouched {A} (m : M A) : stable (λ s, s) m → keeps I m.
Proof. intros Hm s HI. by rewrite Hm. Qed.

Lemma kept_deleteFromActiveList (uid : string) :
  keeps I (modifySelf (deleteFromActiveList uid)).
Proof. intros [w c] HI. by apply I_setActive. Qed.

Lemma kept_Eventf ty reason note : keeps I (Eventf ty reason note).
Proof. intros [w c] HI. by apply I_record. Qed.

Lemma kept_statusUpdate : keeps I statusUpdate.
Proof.
  intros s HI. destruct (statusUpdate_cases s) as [[e ->]|[stored [Hst ->]]];
    [done|].
  destruct s as [w c]. by apply I_status.
Qed.

Lemma kept_deleteWorkload (ref : ObjectReference) : keeps I (deleteWorkload ref).
Proof.
  unfold deleteWorkload. apply keeps_bind; [by apply kept_untouched|].
  intros cron. destruct (newEmptyWorkload cron); [by apply kept_untouched|].
  apply keeps_bind; [by apply kept_untouched|]. intros [err|workload].
  - destruct (IsNotFound err); [|by apply kept_untouched].
    apply keeps_bind; [apply kept_deleteFromActiveList|]. intros _.
    by apply kept_untouched.
  - apply keeps_bind; [apply kept_deleteFromActiveList|]. intros _.
    apply keeps_bind.
    + intros [w0 c0] HI. unfold stepWorld, apiDelete; simpl.
      destruct (w_fault w0 _); [done|].
      destruct (w_workloads w0 !! _); [|done]. by apply I_delete.
    + intros _. apply keeps_bind; [apply kept_Eventf|]. intros _.
      by apply kept_untouched.
Qed.

Lemma kept_deleteWorkloads (refs : list ObjectReference) :
  keeps I (deleteWorkloads refs).
Proof.
  induction refs as [|ref rest IH]; simpl; [by apply kept_untouched|].
  apply keeps_bind; [apply kept_deleteWorkload|done].
Qed.

Lemma kept_deleteTruncated (toTruncate : list CronHistory) :
  keeps I (deleteTruncated toTruncate).
Proof.
  induction toTruncate as [|h rest IH]; simpl; [by apply kept_untouched|].
  apply keeps_bind; [by apply kept_untouched|]. intros cron.
  destruct (truncateRef cron h); [|by apply kept_untouched].
  apply keeps_bind; [apply kept_deleteWorkload|done].
Qed.

Lemma kept_setHistory (f : Cron → list CronHistory) :
  keeps I (modifySelf (λ c, setHistory (f c) c)).
Proof. intros [w c] HI. by apply I_setHistory. Qed.

Lemma kept_updateCronHistory (workloads : list Workload) :
  keeps I (updateCronHistory workloads).
Proof.
  unfold updateCronHistory. apply keeps_bind; [by apply kept_untouched|].
  intros cron. case_decide; [|by apply kept_untouched].
  apply keeps_bind.
  { intros [w c] HI. by apply I_setHistory. }
  intros _. apply keeps_bind; [apply kept_setHistory|]. intros _.
  unfold truncateHistory. apply keeps_bind; [by apply kept_untouched|].
  intros cron'. destruct (HistoryLimit _); [|apply kept_statusUpdate].
  case_decide; [|apply kept_statusUpdate].
  case_decide; [by apply kept_untouched|].
  apply keeps_bind; [apply kept_deleteTruncated|]. intros _.
  apply keeps_bind; [apply kept_setHistory|]. intros _.
  apply kept_statusUpdate.
Qed.

Lemma kept_listActiveWorkloads : keeps I listActiveWorkloads.
Proof.
  apply kept_untouched. unfold listActiveWorkloads.
  apply stable_bind; [done|]. intros cron. apply listActiveLoop_stable.
Qed.

Lemma kept_updateCurrent (latest : option Cron) (uid : string) :
  keeps I (updateCurrent latest (deleteFromActiveList uid)).
Proof.
  destruct latest; simpl; [by apply kept_untouched|].
  apply keeps_bind; [apply kept_deleteFromActiveList|]. intros _.
  by apply kept_untouched.
Qed.

Lemma kept_currentCron (latest : option Cron) : keeps I (currentCron latest).
Proof. destruct latest; by apply kept_untouched. Qed.

Lemma kept_trimObserved (workloads : list Workload) (latest : option Cron)
    (knownActive : gset string) :
  keeps I (trimObserved workloads latest knownActive).
Proof.
  revert latest knownActive.
  induction workloads as [|w rest IH]; intros latest knownActive; simpl;
    [by apply kept_untouched|].
  apply keeps_bind; [apply kept_currentCron|]. intros cron.
  destruct (negb _ && negb _).
  - apply keeps_bind; [by apply kept_untouched|]. intros [err|latestCron];
      [by apply kept_untouched|].
    destruct (inActiveList _ _); [done|].
    apply keeps_bind; [apply kept_Eventf|done].
  - destruct (_ && _); [|done].
    apply keeps_bind; [apply kept_updateCurrent|]. intros latest'.
    apply keeps_bind; [apply kept_Eventf|done].
Qed.

Lemma kept_trimMissing (refs : list ObjectReference) (latest : option Cron)
    (knownActive : gset string) :
  keeps I (trimMissing refs latest knownActive).
Proof.
  induction refs as [|objRef rest IH]; simpl; [by apply kept_untouched|].
  case_decide; [done|].
  apply keeps_bind; [apply kept_currentCron|]. intros cron.
  destruct (newEmptyWorkload cron); [done|].
  apply keeps_bind; [by apply kept_untouched|]. intros [err|wl]; [|done].
  apply keeps_bind; [|intros _; by apply kept_untouched].
  destruct (IsNotFound err); [|by apply kept_untouched].
  apply keeps_bind; [apply kept_Eventf|]. intros _.
  apply keeps_bind; [apply kept_updateCurrent|]. intros _.
  by apply kept_untouched.
Qed.

Lemma kept_trim (workloads : list Workload) :
  keeps I (trimFinishedWorkloadsFromActiveList workloads).
Proof.
  unfold trimFinishedWorkloadsFromActiveList.
  apply keeps_bind; [apply kept_trimObserved|]. intros seen.
  apply keeps_bind; [apply kept_currentCron|]. intros cron.
  apply kept_trimMissing.
Qed.

(** The bookkeeping comes first in a cycle: if the scheduling step takes a
    state that satisfies [I] to one that satisfies [J], so does the cycle. *)
Lemma leads_syncCron
    (ParseStandard : string → option (Z → Z)) (LabelCronName : string)
    (workloads : list Workload) (J : St → Prop) :
  (∀ s, I s → J s) →
  (∀ now, leads I J (scheduleNextIfPossible ParseStandard LabelCronName now)) →
  leads I J (syncCron ParseStandard LabelCronName workloads).
Proof.
  intros HIJ Hnext s HI. unfold syncCron. rewrite bind_readWorld.
  generalize (w_now (world s)). intros now. revert s HI.
  apply (leads_bind I I J); [apply kept_trim|done|]. intros _.
  apply (leads_bind I I J); [apply kept_statusUpdate|done|]. intros _.
  apply (leads_bind I I J); [by apply kept_untouched|done|]. intros cron.
  assert (Hret : ∀ x : option Duration, leads I J (ret x))
    by (intros x s HI; by apply HIJ).
  destruct (bool_decide _); [done|]. destruct (bool_decide _); [done|].
  destruct (Deadline _) as [deadline|]; [|done].
  destruct (deadline <? _); [|done].
  apply (leads_bind I I J); [apply kept_Eventf|done|done].
Qed.

Lemma leads_reconcileLoaded
    (ParseStandard : string → option (Z → Z)) (LabelCronName : string)
    (J : St → Prop) :
  (∀ s, I s → J s) →
  (∀ now, leads I J (scheduleNextIfPossible ParseStandard LabelCronName now)) →
  leads I J (reconcileLoaded ParseStandard LabelCronName).
Proof.
  intros HIJ Hnext. unfold reconcileLoaded.
  apply (leads_bind I I J); [apply kept_listActiveWorkloads|done|].
  intros actives.
  apply (leads_bind I I J); [apply kept_updateCronHistory|done|]. intros _.
  by apply leads_syncCron.
Qed.

End Bookkeeping.

(** What [Reconcile] does, seen from the world: nothing, or what its body
    does on the stored cron. *)
Lemma Reconcile_loaded
    (ParseStandard : string → option (Z → Z)) (LabelCronName : string)
    (req : string * string) (w : World) :
  (snd (Reconcile ParseStandard LabelCronName req w) = w ∧
   ∀ h, fst (Reconcile ParseStandard LabelCronName req w) = Ok h → h = None) ∨
  ∃ c, w_cron w = Some c ∧
       Reconcile ParseStandard LabelCronName req w
       = (fst (reconcileLoaded ParseStandard LabelCronName (mkSt w c)),
          world (snd (reconcileLoaded ParseStandard LabelCronName (mkSt w c)))).
Proof.
  unfold Reconcile, apiGetCron.
  assert (Hnone : ∀ h : option Duration,
            @Ok (option Duration) None = Ok h → h = None)
    by (by intros h [= <-]).
  destruct (w_fault w OpGetCron) as [e|]; [left; by destruct (IsNotFound e)|].
  destruct (w_cron w) as [c|]; [|by left].
  case_decide; [|by left]. right. exists c. split; [done|].
  by destruct (reconcileLoaded _ _ _).
Qed.

(** ** A cycle writes the status and nothing else of the cron *)

Lemma statusOnly_stable {A} (c : Cron) (m : M A) :
  stable storedCron m → keeps (statusOnly c) m.
Proof. apply (keeps_of_stable storedCron (λ o, ∃ st, o = Some (setStatus st c))). Qed.

Lemma statusOnly_statusUpdate (c : Cron) : keeps (statusOnly c) statusUpdate.
Proof.
  apply kept_statusUpdate. intros w c1 stored [st Hst] Hstored.
  exists (Status c1). unfold storedCron in *; simpl in *.
  rewrite Hstored in Hst. by injection Hst as ->.
Qed.

Lemma getNextScheduleTime_storedCron (now : Time) (schedule : Z → Z) :
  stable storedCron (getNextScheduleTime now schedule).
Proof.
  intros s. rewrite getNextScheduleTime_run.
  by destruct (walkSchedule _ _ _ _ _).
Qed.

Lemma statusOnly_createScheduled (c : Cron) (LabelCronName : string)
    (schedule : Z → Z) (now t : Time) :
  keeps (statusOnly c) (createScheduled LabelCronName schedule now t).
Proof.
  unfold createScheduled. apply keeps_bind.
  { apply statusOnly_stable, stable_mapErr, newWorkloadFromTemplate_storedCron. }
  intros w. apply keeps_bind.
  { apply statusOnly_stable, stable_stepWorld. intros w0 c0.
    apply apiCreate_w_cron. }
  intros [err|created].
  - apply statusOnly_stable. apply stable_bind; [done|]. intros cron.
    destruct (_ && _); [done|].
    apply stable_bind; [by apply stable_Eventf|done].
  - apply keeps_bind; [by apply statusOnly_stable, stable_Eventf|]. intros _.
    apply keeps_bind; [by apply statusOnly_stable, stable_modifySelf|].
    intros _.
    apply keeps_bind; [by apply statusOnly_stable, stable_modifySelf|].
    intros _.
    apply keeps_bind; [apply statusOnly_statusUpdate|]. intros _.
    by apply statusOnly_stable.
Qed.

Lemma statusOnly_scheduleNextIfPossible (c : Cron)
    (ParseStandard : string → option (Z → Z)) (LabelCronName : string)
    (now : Time) :
  keeps (statusOnly c) (scheduleNextIfPossible ParseStandard LabelCronName now).
Proof.
  unfold scheduleNextIfPossible.
  apply keeps_bind; [by apply statusOnly_stable|]. intros cron.
  destruct (ParseStandard _) as [schedule|].
  2:{ apply statusOnly_stable. apply stable_bind; [by apply stable_Eventf|done]. }
  apply keeps_bind; [apply statusOnly_stable, getNextScheduleTime_storedCron|].
  intros [err|scheduledTime].
  { apply statusOnly_stable. apply stable_bind; [by apply stable_Eventf|done]. }
  unfold startScheduled.
  apply keeps_bind; [by apply statusOnly_stable|]. intros cron'.
  destruct scheduledTime as [t|]; [|by apply statusOnly_stable].
  destruct (timeEqual _ _); [by apply statusOnly_stable|].
  case_decide.
  { apply statusOnly_stable. apply stable_bind; [by apply stable_Eventf|done]. }
  apply keeps_bind; [|intros _; apply statusOnly_createScheduled].
  apply statusOnly_stable.
  case_decide; [apply deleteWorkloads_storedCron|done].
Qed.

(** X1. A cycle never writes the spec or the metadata of the cron: whatever
    the store answers and whatever the cycle does, the stored cron after the
    cycle is the stored cron before it but for its status.  In particular
    the concurrency policy that [newWorkloadFromTemplate] sets on its
    in-memory object never reaches the store. *)
Theorem Reconcile_writes_status_only
    (ParseStandard : string → option (Z → Z)) (LabelCronName : string)
    (req : string * string) (w : World) (c : Cron) :
  w_cron w = Some c →
  ∃ st, w_cron (snd (Reconcile ParseStandard LabelCronName req w))
        = Some (setStatus st c).
Proof.
  intros Hc.
  destruct (Reconcile_loaded ParseStandard LabelCronName req w)
    as [[-> _]|[c' [Hc' ->]]].
  { exists (Status c). rewrite Hc. by destruct c. }
  rewrite Hc in Hc'. injection Hc' as <-. simpl.
  apply (leads_reconcileLoaded (statusOnly c)) with (J := statusOnly c)
    (s := mkSt w c); try done.
  - intros w0 c0 stored [st Hst] Hstored. exists (Status c0).
    unfold storedCron in *; simpl in *. rewrite Hstored in Hst.
    by injection Hst as ->.
  - intros now. apply statusOnly_scheduleNextIfPossible.
  - exists (Status c). unfold storedCron; simpl. rewrite Hc. by destruct c.
Qed.

Lemma Reconcile_writes_status_only_witness :
  ∃ st, w_cron (snd (Reconcile Demo.parse Demo.label Demo.req Demo.fixedWorld))
        = Some (setStatus st Demo.fixedCron).
Proof.
  apply (Reconcile_writes_status_only Demo.parse Demo.label Demo.req
           Demo.fixedWorld Demo.fixedCron).
  reflexivity.
Defined.

(** ** A cycle creates at most one workload *)

Lemma statusUpdate_storedWorkloads :
  stable (λ s, (storedWorkloads s, w_nextUID (world s), w_now (world s)))
    statusUpdate.
Proof.
  intros s. by destruct (statusUpdate_cases s) as [[e ->]|[stored [_ ->]]].
Qed.

Lemma newWorkloadFromTemplate_storedWorkloads (LabelCronName : string)
    (t : Time) :
  stable (λ s, (storedWorkloads s, w_nextUID (world s), w_now (world s)))
    (newWorkloadFromTemplate LabelCronName t).
Proof.
  unfold newWorkloadFromTemplate. apply stable_bind; [done|]. intros cron.
  destruct (newEmptyWorkload cron) as [|w]; [done|].
  apply stable_bind.
  - case_decide; [done|].
    apply stable_bind; [by apply stable_Eventf|]. intros _.
    apply stable_bind; [by apply stable_modifySelf|done].
  - intros w'. by destruct (SetControllerReference _ _).
Qed.

Lemma getNextScheduleTime_storedWorkloads (now : Time) (schedule : Z → Z) :
  stable (λ s, (storedWorkloads s, w_nextUID (world s), w_now (world s)))
    (getNextScheduleTime now schedule).
Proof.
  intros s. rewrite getNextScheduleTime_run.
  by destruct (walkSchedule _ _ _ _ _).
Qed.

Lemma nothingNew_stable {A} (initial : World) (m : M A) :
  stable (λ s, (storedWorkloads s, w_nextUID (world s), w_now (world s))) m →
  keeps (nothingNew initial) m.
Proof.
  apply (keeps_of_stable
           (λ s, (storedWorkloads s, w_nextUID (world s), w_now (world s)))
           (λ x, x.1.1 ⊆ w_workloads initial ∧ x.1.2 = w_nextUID initial ∧
                 x.2 = w_now initial)).
Qed.

Lemma grownByOne_stable {A} (initial : World) (m : M A) :
  stable (λ s, (storedWorkloads s, w_nextUID (world s), w_now (world s))) m →
  keeps (λ s, grownByOne initial (world s)) m.
Proof.
  intros Hm s. specialize (Hm s). injection Hm as Hstore Huid _.
  unfold grownByOne, storedWorkloads in *. by rewrite Hstore, Huid.
Qed.

Lemma nothingNew_delete (initial : World) (w : World) (c : Cron)
    (k : string * string) :
  nothingNew initial (mkSt w c) →
  nothingNew initial
    (mkSt (mkWorld (w_cron w) (delete k (w_workloads w)) (w_events w)
             (w_nextUID w) (w_now w) (w_fault w)) c).
Proof.
  intros (Hsub & Huid & Hnow). split_and!; [|done..].
  unfold storedWorkloads in *; simpl in *.
  etrans; [apply delete_subseteq|done].
Qed.

Lemma apiCreate_grows (o : Workload) (w initial : World) :
  w_workloads w ⊆ w_workloads initial →
  w_nextUID w = w_nextUID initial →
  w_now w = w_now initial →
  grownByOne initial (snd (apiCreate o w)).
Proof.
  intros Hsub Huid Hnow. unfold apiCreate.
  destruct (w_fault w _); [by left|].
  destruct (storedName o w) as [name|]; [|by left].
  destruct (w_workloads w !! _) eqn:Hfree; [by left|].
  right. simpl.
  exists (w_workloads w),
    (mkWorkload (wKind o) (wAPIVersion o) name (wGenerateName o)
       (wNamespace o) ("uid-" +:+ pretty (w_nextUID w)) (wLabels o) (w_now w)
       (wController o) (wConditions o)).
  unfold workloadKey. simpl. rewrite <- Huid, <- Hnow. done.
Qed.

Lemma createScheduled_grows (initial : World) (LabelCronName : string)
    (schedule : Z → Z) (now t : Time) :
  leads (nothingNew initial) (λ s, grownByOne initial (world s))
    (createScheduled LabelCronName schedule now t).
Proof.
  unfold createScheduled.
  apply (leads_bind _ (nothingNew initial) _).
  { apply nothingNew_stable, stable_mapErr,
      newWorkloadFromTemplate_storedWorkloads. }
  { intros s (Hsub & Huid & Hnow). by left. }
  intros o. apply (leads_bind _ (λ s, grownByOne initial (world s)) _).
  { intros [w c] (Hsub & Huid & Hnow). unfold stepWorld. simpl.
    pose proof (apiCreate_grows o w initial Hsub Huid Hnow) as Hgrown.
    by destruct (apiCreate o w). }
  { done. }
  intros [err|created]; apply grownByOne_stable.
  - apply stable_bind; [done|]. intros cron. destruct (_ && _); [done|].
    apply stable_bind; [by apply stable_Eventf|done].
  - apply stable_bind; [by apply stable_Eventf|]. intros _.
    apply stable_bind; [by apply stable_modifySelf|]. intros _.
    apply stable_bind; [by apply stable_modifySelf|]. intros _.
    apply stable_bind; [apply statusUpdate_storedWorkloads|done].
Qed.

Lemma scheduleNextIfPossible_grows (initial : World)
    (ParseStandard : string → option (Z → Z)) (LabelCronName : string)
    (now : Time) :
  leads (nothingNew initial) (λ s, grownByOne initial (world s))
    (scheduleNextIfPossible ParseStandard LabelCronName now).
Proof.
  set (J := λ s, grownByOne initial (world s)).
  assert (HIJ : ∀ s, nothingNew initial s → J s).
  { intros s (Hsub & Huid & Hnow). by left. }
  assert (Hsame : ∀ A (m : M A),
             stable (λ s, (storedWorkloads s, w_nextUID (world s),
                           w_now (world s))) m →
             leads (nothingNew initial) J m).
  { intros A m Hm s Hs. apply HIJ. by apply nothingNew_stable. }
  unfold scheduleNextIfPossible.
  apply (leads_bind _ (nothingNew initial) _);
    [by apply nothingNew_stable|done|].
  intros cron. destruct (ParseStandard _) as [schedule|].
  2:{ apply Hsame. apply stable_bind; [by apply stable_Eventf|done]. }
  apply (leads_bind _ (nothingNew initial) _);
    [apply nothingNew_stable, getNextScheduleTime_storedWorkloads|done|].
  intros [err|scheduledTime].
  { apply Hsame. apply stable_bind; [by apply stable_Eventf|done]. }
  unfold startScheduled.
  apply (leads_bind _ (nothingNew initial) _);
    [by apply nothingNew_stable|done|].
  intros cron'. destruct scheduledTime as [t|]; [|by apply Hsame].
  destruct (timeEqual _ _); [by apply Hsame|].
  case_decide.
  { apply Hsame. apply stable_bind; [by apply stable_Eventf|done]. }
  apply (leads_bind _ (nothingNew initial) _);
    [|done|intros _; apply createScheduled_grows].
  case_decide; [|by apply nothingNew_stable].
  apply kept_deleteWorkloads; [done..|]. apply nothingNew_delete.
Qed.

(** X2. A cycle creates at most one workload: after [Reconcile] every
    workload in the store is one that was there before, as it was, but for
    at most one object, which carries the next UID of the store and the
    clock as its creation time and sits under its own name, free at the
    moment it was put there (under the Replace policy this may be the name
    of a workload the cycle has just deleted); the UID counter has moved by
    one in that case and not at all otherwise.  This holds for every policy,
    every outcome of the cycle and every answer of the store. *)
Theorem Reconcile_creates_at_most_one
    (ParseStandard : string → option (Z → Z)) (LabelCronName : string)
    (req : string * string) (w : World) :
  grownByOne w (snd (Reconcile ParseStandard LabelCronName req w)).
Proof.
  destruct (Reconcile_loaded ParseStandard LabelCronName req w)
    as [[-> _]|[c [Hc ->]]]; [by left|]. simpl.
  apply (leads_reconcileLoaded (nothingNew w))
    with (J := λ s, grownByOne w (world s)) (s := mkSt w c); try done.
  - apply nothingNew_delete.
  - intros s (Hsub & Huid & Hnow). by left.
  - intros now. apply scheduleNextIfPossible_grows.
Qed.

(** ** A stopped cron *)

Lemma bind_post {A B} (I : St → Prop) (Q : result B * St → Prop)
    (m : M A) (k : A → M B) :
  keeps I m →
  (∀ e s, I s → Q (Err e, s)) →
  (∀ s, I s → Q (Panic, s)) →
  (∀ a s, I s → Q (k a s)) →
  ∀ s, I s → Q (bind m k s).
Proof.
  intros Hm He Hp Hk s HI. unfold bind. specialize (Hm s HI).
  destruct (m s) as [[a|e|] s']; simpl in *; auto.
Qed.

Section Stopped.
Context (now : Time) (last : option Time)
  (initial : gmap (string * string) Workload).

Lemma stoppedCycle_setActive (w : World) (c : Cron) (a : list ObjectReference) :
  stoppedCycle now last initial (mkSt w c) →
  stoppedCycle now last initial (mkSt w (setActive a c)).
Proof. done. Qed.

Lemma stoppedCycle_setHistory (w : World) (c : Cron) (h : list CronHistory) :
  stoppedCycle now last initial (mkSt w c) →
  stoppedCycle now last initial (mkSt w (setHistory h c)).
Proof. done. Qed.

Lemma stoppedCycle_record (w : World) (c : Cron) (e : Event) :
  stoppedCycle now last initial (mkSt w c) →
  stoppedCycle now last initial (mkSt (record e w) c).
Proof. done. Qed.

Lemma stoppedCycle_delete (w : World) (c : Cron) (k : string * string) :
  stoppedCycle now last initial (mkSt w c) →
  stoppedCycle now last initial
    (mkSt (mkWorld (w_cron w) (delete k (w_workloads w)) (w_events w)
             (w_nextUID w) (w_now w) (w_fault w)) c).
Proof.
  intros (Hnow & Hsub & Hstop & Hlast & Hstored). split_and!; try done.
  unfold storedWorkloads in *; simpl in *.
  etrans; [apply delete_subseteq|done].
Qed.

Lemma stoppedCycle_status (w : World) (c stored : Cron) :
  stoppedCycle now last initial (mkSt w c) →
  w_cron w = Some stored →
  stoppedCycle now last initial
    (mkSt (mkWorld (Some (setStatus (Status c) stored)) (w_workloads w)
             (w_events w) (w_nextUID w) (w_now w) (w_fault w))
          (setStatus (Status c) stored)).
Proof.
  intros (Hnow & Hsub & Hstop & Hlast & Hstored) Hw.
  destruct (Hstored stored Hw) as [Hstop' _].
  split_and!; try done.
  unfold storedCron; simpl. intros c' [= <-]. done.
Qed.

Lemma syncCron_stopped
    (ParseStandard : string → option (Z → Z)) (LabelCronName : string)
    (workloads : list Workload) (s : St) :
  stoppedCycle now last initial s →
  stoppedCycle now last initial
    (snd (syncCron ParseStandard LabelCronName workloads s)) ∧
  ∀ h, fst (syncCron ParseStandard LabelCronName workloads s) = Ok h →
       h = None.
Proof.
  intros HI. unfold syncCron. rewrite bind_readWorld.
  assert (Hnow : w_now (world s) = now) by apply HI. rewrite Hnow.
  clear Hnow. revert s HI.
  apply (bind_post (stoppedCycle now last initial)
           (λ r, stoppedCycle now last initial (snd r) ∧
                 ∀ h, fst r = Ok h → h = None)); try done.
  { apply kept_trim; [apply stoppedCycle_setActive|apply stoppedCycle_record]. }
  intros _.
  apply (bind_post (stoppedCycle now last initial)
           (λ r, stoppedCycle now last initial (snd r) ∧
                 ∀ h, fst r = Ok h → h = None)); try done.
  { apply kept_statusUpdate, stoppedCycle_status. }
  intros _ s HI. rewrite bind_getSelf.
  assert (Hnone : stoppedCycle now last initial
                    (snd (@ret (option Duration) None s)) ∧
                  ∀ h, fst (@ret (option Duration) None s) = Ok h → h = None).
  { split; [done|]. by intros h [= <-]. }
  case_bool_decide as Hdel; [exact Hnone|].
  case_bool_decide as Hsus; [exact Hnone|].
  pose proof HI as (Hnow & Hsub & Hstop & Hrest).
  destruct Hstop as [Hd|[Hs|(deadline & Hd & Hlt)]]; [done..|].
  rewrite Hd. destruct (Z.ltb_spec deadline now) as [_|Hge]; [|lia].
  split; [|by intros h [= <-]].
  destruct s as [w c]. by apply (stoppedCycle_record w c).
Qed.

End Stopped.

(** X3. A cycle on a cron that is being deleted, is suspended or has passed
    its deadline fires nothing: no workload is created (the store only
    loses objects, by the history truncation), the persisted last-fired
    time stays as it was, and a cycle that succeeds asks for no requeue. *)
Theorem Reconcile_stopped
    (ParseStandard : string → option (Z → Z)) (LabelCronName : string)
    (req : string * string) (w : World) (c : Cron) :
  w_cron w = Some c →
  stopped (w_now w) c →
  let r := Reconcile ParseStandard LabelCronName req w in
  w_workloads (snd r) ⊆ w_workloads w ∧
  (∀ c', w_cron (snd r) = Some c' →
         LastScheduleTime (Status c') = LastScheduleTime (Status c)) ∧
  (∀ h, fst r = Ok h → h = None).
Proof.
  intros Hc Hstop r. unfold r.
  destruct (Reconcile_loaded ParseStandard LabelCronName req w)
    as [[-> Hh]|[c' [Hc' ->]]].
  { split_and!; [done| |done]. rewrite Hc. by intros c' [= <-]. }
  rewrite Hc in Hc'. injection Hc' as <-. simpl.
  set (I := stoppedCycle (w_now w) (LastScheduleTime (Status c))
              (w_workloads w)).
  assert (H0 : I (mkSt w c)).
  { split_and!; try done. unfold storedCron; simpl. rewrite Hc.
    by intros c' [= <-]. }
  assert (Hrun : ∀ s, I s →
            I (snd (reconcileLoaded ParseStandard LabelCronName s)) ∧
            ∀ h, fst (reconcileLoaded ParseStandard LabelCronName s) = Ok h →
                 h = None).
  { unfold reconcileLoaded.
    apply (bind_post I (λ r', I (snd r') ∧ ∀ h, fst r' = Ok h → h = None));
      try done.
    { apply kept_listActiveWorkloads. }
    intros actives.
    apply (bind_post I (λ r', I (snd r') ∧ ∀ h, fst r' = Ok h → h = None));
      try done.
    { apply kept_updateCronHistory;
        [apply stoppedCycle_setActive|apply stoppedCycle_setHistory
        |apply stoppedCycle_record|apply stoppedCycle_delete
        |apply stoppedCycle_status]. }
    intros _ s Hs. by apply syncCron_stopped. }
  destruct (Hrun _ H0) as [(Hnow & Hsub & _ & _ & Hstored) Hh].
  split_and!; [done| |done].
  intros c' Hc'. by apply Hstored.
Qed.

Lemma Reconcile_stopped_witness :
  let r := Reconcile Demo.parse Demo.label Demo.req Demo.suspendedWorld in
  w_workloads (snd r) ⊆ w_workloads Demo.suspendedWorld ∧
  (∀ c', w_cron (snd r) = Some c' →
         LastScheduleTime (Status c')
         = LastScheduleTime (Status Demo.suspendedCron)) ∧
  (∀ h, fst r = Ok h → h = None).
Proof.
  apply (Reconcile_stopped Demo.parse Demo.label Demo.req Demo.suspendedWorld
           Demo.suspendedCron).
  - reflexivity.
  - right. left. reflexivity.
Defined.

(** ** What the trim pass leaves alone *)

(** X4. [trimFinishedWorkloadsFromActiveList] writes nothing but the active
    list of the in-memory cron (and events): whatever its outcome, the stored
    cron and the workload store are as before, so it neither deletes a
    workload nor persists anything, and the spec, the history and the
    last-fired time of the in-memory cron are unchanged. *)
Theorem trim_touches_active_list_only (workloads : list Workload) (s : St) :
  trimFrame (snd (trimFinishedWorkloadsFromActiveList workloads s))
  = trimFrame s.
Proof.
  apply (kept_trim (λ s', trimFrame s' = trimFrame s)); done.
Qed.

(** ** The order handed to the sort *)

(** X5. The [less] closure of [updateCronHistory] is a strict weak order,
    which is what [sort.Slice] asks of it: no entry is before itself, being
    before is transitive, and so is being not before. *)
Theorem historyLess_strict_weak_order :
  (∀ a, historyLess a a = false) ∧
  (∀ a b c, historyLess a b = true → historyLess b c = true →
            historyLess a c = true) ∧
  (∀ a b c, historyLess a b = false → historyLess b c = false →
            historyLess a c = false).
Proof.
  assert (Hirr : ∀ a, historyLess a a = false).
  { intros a. by destruct (historyLe_total a a). }
  assert (Hneg : ∀ a b c, historyLess a b = false → historyLess b c = false →
                          historyLess a c = false).
  { intros a b c Hab Hbc. by apply (historyLe_trans c b a). }
  split_and!; [done| |done].
  intros a b c Hab Hbc.
  destruct (historyLess a c) eqn:Hac; [done|].
  assert (Hba : historyLess b a = false).
  { destruct (historyLe_total a b) as [H|H]; unfold historyLe in H; congruence. }
  rewrite (Hneg b a c Hba Hac) in Hbc. done.
Qed.

(** ** What the history fold keeps *)

Lemma foldWorkload_frame (apiVersion kind : string) (index : gmap string nat)
    (hs : list CronHistory) (w : Workload) :
  (length hs ≤ length (foldWorkload apiVersion kind index hs w)
   ≤ S (length hs))%nat ∧
  (∀ i old, hs !! i = Some old →
     ∃ h, foldWorkload apiVersion kind index hs w !! i = Some h ∧
          hObject h = hObject old ∧ hCreated h = hCreated old) ∧
  (historyDated hs → historyDated (foldWorkload apiVersion kind index hs w)).
Proof.
  unfold foldWorkload, historyDated.
  destruct (index !! _) as [idx|].
  - rewrite length_alter. split; [lia|]. split.
    + intros i old Hi. destruct (decide (idx = i)) as [->|Hne].
      * rewrite list_lookup_alter_eq, Hi. simpl. eauto.
      * rewrite list_lookup_alter_ne by done. eauto.
    + intros Hd. apply Forall_lookup. intros i h.
      destruct (decide (idx = i)) as [->|Hne].
      * rewrite list_lookup_alter_eq.
        destruct (hs !! i) as [old|] eqn:Hi; simpl; [|done].
        intros [= <-]. simpl. by apply (Forall_lookup_1 _ _ _ _ Hd Hi).
      * rewrite list_lookup_alter_ne by done. intros Hi.
        by apply (Forall_lookup_1 _ _ _ _ Hd Hi).
  - rewrite length_app. simpl. split; [lia|]. split.
    + intros i old Hi. rewrite lookup_app_l by (by eapply lookup_lt_Some).
      eauto.
    + intros Hd. apply Forall_app. split; [done|].
      apply Forall_singleton. simpl. eauto.
Qed.

Lemma foldl_foldWorkload_frame (apiVersion kind : string)
    (index : gmap string nat) (workloads : list Workload)
    (hs : list CronHistory) :
  historyDated hs →
  (length hs ≤ length (foldl (foldWorkload apiVersion kind index) hs workloads)
   ≤ length hs + length workloads)%nat ∧
  (∀ i old, hs !! i = Some old →
     ∃ h, foldl (foldWorkload apiVersion kind index) hs workloads !! i = Some h ∧
          hObject h = hObject old ∧ hCreated h = hCreated old) ∧
  historyDated (foldl (foldWorkload apiVersion kind index) hs workloads).
Proof.
  revert hs. induction workloads as [|w rest IH]; intros hs Hd; simpl.
  { split; [lia|]. split; [eauto|done]. }
  destruct (foldWorkload_frame apiVersion kind index hs w)
    as (Hlen & Hkeep & Hdated).
  destruct (IH _ (Hdated Hd)) as (Hlen' & Hkeep' & Hdated').
  split; [lia|]. split; [|done].
  intros i old Hi. destruct (Hkeep i old Hi) as (h & Hh & Ho & Hc).
  destruct (Hkeep' i h Hh) as (h' & Hh' & Ho' & Hc').
  exists h'. split; [done|]. split; congruence.
Qed.

Lemma foldWorkloads_length (apiVersion kind : string) (hs : list CronHistory)
    (workloads : list Workload) :
  historyDated hs →
  (length (foldWorkloads apiVersion kind hs workloads)
   ≤ length hs + length workloads)%nat.
Proof.
  intros Hd.
  destruct (foldl_foldWorkload_frame apiVersion kind (indexHistory 0 hs ∅)
              workloads hs Hd) as [Hlen _].
  unfold foldWorkloads. lia.
Qed.

(** X6. The history fold of [updateCronHistory] never drops or moves an
    entry: on a history whose entries all have a created time, every old
    entry stays at its index with its object reference and created time,
    the fold adds at most one entry for each observed workload, and every
    entry of the result has a created time. *)
Theorem foldWorkloads_frame (apiVersion kind : string) (hs : list CronHistory)
    (workloads : list Workload) :
  historyDated hs →
  (length hs ≤ length (foldWorkloads apiVersion kind hs workloads)
   ≤ length hs + length workloads)%nat ∧
  (∀ i old, hs !! i = Some old →
     ∃ h, foldWorkloads apiVersion kind hs workloads !! i = Some h ∧
          hObject h = hObject old ∧ hCreated h = hCreated old) ∧
  historyDated (foldWorkloads apiVersion kind hs workloads).
Proof. apply foldl_foldWorkload_frame. Qed.

Lemma foldWorkloads_frame_witness :
  (length [Demo.entry60]
   ≤ length (foldWorkloads "kubeflow.org/v1" "TFJob" [Demo.entry60]
               [Demo.job60; Demo.job120])
   ≤ length [Demo.entry60] + length [Demo.job60; Demo.job120])%nat ∧
  (∀ i old, [Demo.entry60] !! i = Some old →
     ∃ h, foldWorkloads "kubeflow.org/v1" "TFJob" [Demo.entry60]
            [Demo.job60; Demo.job120] !! i = Some h ∧
          hObject h = hObject old ∧ hCreated h = hCreated old) ∧
  historyDated (foldWorkloads "kubeflow.org/v1" "TFJob" [Demo.entry60]
                  [Demo.job60; Demo.job120]).
Proof.
  apply (foldWorkloads_frame "kubeflow.org/v1" "TFJob" [Demo.entry60]
           [Demo.job60; Demo.job120]).
  apply Forall_singleton. simpl. eauto.
Defined.

Lemma indexHistory_absent (hs : list CronHistory) (k : string) :
  (∀ h, h ∈ hs → historyKey h ≠ k) → indexHistory 0 hs ∅ !! k = None.
Proof.
  intros Habs. destruct (indexHistory 0 hs ∅ !! k) as [idx|] eqn:Hidx; [|done].
  apply indexHistory_Some in Hidx as [Hm|[h [_ [Hh Hk]]]].
  - by rewrite lookup_empty in Hm.
  - apply list_elem_of_lookup_2 in Hh. by destruct (Habs h Hh).
Qed.

Lemma foldl_foldWorkload_append (apiVersion kind : string)
    (index : gmap string nat) (workloads : list Workload)
    (hs : list CronHistory) :
  (∀ w, w ∈ workloads →
        index !! historyKey (workloadToHistory w apiVersion kind) = None) →
  foldl (foldWorkload apiVersion kind index) hs workloads
  = hs ++ ((λ w, workloadToHistory w apiVersion kind) <$> workloads).
Proof.
  revert hs. induction workloads as [|w rest IH]; intros hs Hnone; simpl.
  { by rewrite app_nil_r. }
  rewrite IH by (intros w' Hw'; apply Hnone; by right).
  unfold foldWorkload at 1. rewrite Hnone by left.
  by rewrite <- app_assoc.
Qed.

(** X7. Observed workloads none of whose keys is in the history are all
    appended to it, in the order they were observed, and nothing else
    changes.  The index is built before the loop and not extended by the
    appends, so two observed workloads with the same key are both
    appended. *)
Theorem foldWorkloads_append (apiVersion kind : string) (hs : list CronHistory)
    (workloads : list Workload) :
  historyDated hs →
  (∀ h w, h ∈ hs → w ∈ workloads →
          historyKey h ≠ historyKey (workloadToHistory w apiVersion kind)) →
  foldWorkloads apiVersion kind hs workloads
  = hs ++ ((λ w, workloadToHistory w apiVersion kind) <$> workloads).
Proof.
  intros _ Habs. apply foldl_foldWorkload_append. intros w Hw.
  apply indexHistory_absent. intros h Hh. by apply Habs.
Qed.

Lemma foldWorkloads_append_witness :
  foldWorkloads "kubeflow.org/v1" "TFJob" [Demo.entry60]
    [Demo.job120; Demo.job120]
  = [Demo.entry60] ++
    ((λ w, workloadToHistory w "kubeflow.org/v1" "TFJob")
       <$> [Demo.job120; Demo.job120]).
Proof.
  apply (foldWorkloads_append "kubeflow.org/v1" "TFJob" [Demo.entry60]
           [Demo.job120; Demo.job120]).
  - apply Forall_singleton. simpl. eauto.
  - intros h w Hh Hw. apply list_elem_of_singleton in Hh. subst h.
    assert (Hw' : w = Demo.job120).
    { apply elem_of_cons in Hw as [->|Hw]; [done|].
      by apply list_elem_of_singleton in Hw. }
    subst w. vm_compute. discriminate.
Defined.

(** ** What the history update persists *)

Lemma bind_run {A B} (m : M A) (k : A → M B) (s : St) :
  bind m k s = match m s with
               | (Ok a, s') => k a s'
               | (Err e, s') => (Err e, s')
               | (Panic, s') => (Panic, s')
               end.
Proof. done. Qed.

Lemma statusUpdate_ok (s : St) :
  fst (statusUpdate s) = Ok tt →
  historyOf (snd (statusUpdate s)) = historyOf s ∧
  ∃ c, storedCron (snd (statusUpdate s)) = Some c ∧
       History (Status c) = historyOf s.
Proof.
  intros Hok. split; [apply statusUpdate_history|].
  by apply statusUpdate_persists.
Qed.

Lemma truncateHistory_ok (s : St) :
  fst (truncateHistory s) = Ok tt →
  historyOf (snd (truncateHistory s))
  = keepNewest (HistoryLimit (Spec (self s))) (historyOf s) ∧
  (∃ c, storedCron (snd (truncateHistory s)) = Some c ∧
        History (Status c)
        = keepNewest (HistoryLimit (Spec (self s))) (historyOf s)) ∧
  (∀ n, HistoryLimit (Spec (self s)) = Some n →
        Z.of_nat (length (historyOf s)) ≤ n ∨ 0 ≤ n).
Proof.
  assert (Hstatus : ∀ s0 : St, ∀ P : Prop, P →
            fst (statusUpdate s0) = Ok tt →
            historyOf (snd (statusUpdate s0)) = historyOf s0 ∧
            (∃ c, storedCron (snd (statusUpdate s0)) = Some c ∧
                  History (Status c) = historyOf s0) ∧ P).
  { intros s0 P HP Hok. destruct (statusUpdate_ok s0 Hok). done. }
  unfold truncateHistory. rewrite bind_getSelf. unfold keepNewest.
  destruct (HistoryLimit (Spec (self s))) as [limit|];
    [|by apply Hstatus].
  case_decide as Hlt.
  2:{ replace (Z.to_nat (Z.of_nat (length (historyOf s)) - limit)) with 0%nat
        by (unfold historyOf; lia).
      rewrite drop_0. apply Hstatus. intros n [= <-]. left.
      unfold historyOf. lia. }
  case_decide as Hneg; [intros Hok; discriminate Hok|].
  set (n := Z.to_nat (Z.of_nat (length (History (Status (self s)))) - limit)).
  pose proof (deleteTruncated_history (take n (History (Status (self s)))) s)
    as Hdel.
  rewrite bind_run.
  destruct (deleteTruncated _ s) as [[[]| |] s2]; simpl in Hdel;
    [|simpl; intros; discriminate..].
  rewrite !bind_modifySelf. intros Hok. apply statusUpdate_ok in Hok.
  destruct Hok as [Hmem [c [Hc Hh]]].
  assert (Heq : historyOf (mkSt (world s2)
                  (setHistory (drop n (History (Status (self s2)))) (self s2)))
                = drop (Z.to_nat (Z.of_nat (length (historyOf s)) - limit))
                    (historyOf s)).
  { unfold historyOf in *. simpl. by rewrite Hdel. }
  rewrite Heq in Hmem, Hh. split; [done|]. split; [by exists c|].
  intros n0 [= <-]. right. lia.
Qed.

(** X8. When [updateCronHistory] succeeds, the history it has persisted is
    the sorted fold of the observed workloads into the old history, cut down
    to its newest entries when a limit is set; the in-memory history is the
    persisted one, and it is never longer than the limit. *)
Theorem updateCronHistory_persists (workloads : list Workload) (s : St) :
  historyDated (historyOf s) →
  fst (updateCronHistory workloads s) = Ok tt →
  let kept :=
    keepNewest (HistoryLimit (Spec (self s)))
      (sortHistory
         (foldWorkloads (tplAPIVersion (Template (Spec (self s))))
            (tplKind (Template (Spec (self s)))) (historyOf s) workloads)) in
  historyOf (snd (updateCronHistory workloads s)) = kept ∧
  (∃ c, storedCron (snd (updateCronHistory workloads s)) = Some c ∧
        History (Status c) = kept) ∧
  (∀ n, HistoryLimit (Spec (self s)) = Some n → Z.of_nat (length kept) ≤ n).
Proof.
  intros Hd. destruct s as [w c]. rewrite updateCronHistory_run by done.
  intros Hok. apply truncateHistory_ok in Hok. simpl.
  destruct Hok as (Hmem & Hstored & Hlimit).
  split_and!; [exact Hmem|exact Hstored|].
  intros n Hn. specialize (Hlimit n Hn). simpl in Hn. rewrite Hn.
  unfold keepNewest, historyOf in *. simpl in *. rewrite length_drop. lia.
Qed.

Lemma updateCronHistory_persists_witness :
  let s := mkSt Demo.limitWorld Demo.limitCron in
  let ws := [Demo.job60; Demo.job120] in
  let kept :=
    keepNewest (HistoryLimit (Spec (self s)))
      (sortHistory
         (foldWorkloads (tplAPIVersion (Template (Spec (self s))))
            (tplKind (Template (Spec (self s)))) (historyOf s) ws)) in
  historyOf (snd (updateCronHistory ws s)) = kept ∧
  (∃ c, storedCron (snd (updateCronHistory ws s)) = Some c ∧
        History (Status c) = kept) ∧
  (∀ n, HistoryLimit (Spec (self s)) = Some n → Z.of_nat (length kept) ≤ n).
Proof.
  apply (updateCronHistory_persists [Demo.job60; Demo.job120]
           (mkSt Demo.limitWorld Demo.limitCron)).
  - apply Forall_nil. done.
  - vm_compute. reflexivity.
Defined.

Lemma statusUpdate_quiet (s : St) :
  storedWorkloads (snd (statusUpdate s)) = storedWorkloads s ∧
  w_events (world (snd (statusUpdate s))) = w_events (world s) ∧
  Active (Status (self (snd (statusUpdate s)))) = Active (Status (self s)).
Proof.
  by destruct (statusUpdate_cases s) as [[e ->]|[stored [_ ->]]].
Qed.

(** X9. While the history stays within the limit, [updateCronHistory]
    deletes nothing: whatever its outcome, the workload store, the recorded
    events and the active list are as before.  The old entries and the
    observed workloads together not exceeding the limit is enough, and so is
    having no limit. *)
Theorem updateCronHistory_within_limit (workloads : list Workload) (s : St) :
  historyDated (historyOf s) →
  (∀ n, HistoryLimit (Spec (self s)) = Some n →
        Z.of_nat (length (historyOf s) + length workloads) ≤ n) →
  storedWorkloads (snd (updateCronHistory workloads s)) = storedWorkloads s ∧
  w_events (world (snd (updateCronHistory workloads s))) = w_events (world s) ∧
  Active (Status (self (snd (updateCronHistory workloads s))))
  = Active (Status (self s)).
Proof.
  intros Hd Hroom. destruct s as [w c]. rewrite updateCronHistory_run by done.
  unfold truncateHistory. rewrite bind_getSelf. simpl in *.
  set (folded := foldWorkloads _ _ _ _).
  set (s1 := mkSt w (setHistory (sortHistory folded) c)).
  destruct (HistoryLimit (Spec c)) as [limit|];
    [|apply (statusUpdate_quiet s1)].
  case_decide as Hlt; [|apply (statusUpdate_quiet s1)].
  exfalso. rewrite (Permutation_length (sortHistory_perm folded)) in Hlt.
  pose proof (foldWorkloads_length (tplAPIVersion (Template (Spec c)))
                (tplKind (Template (Spec c))) (History (Status c)) workloads Hd)
    as Hlen.
  specialize (Hroom limit eq_refl). unfold historyOf in Hroom; simpl in Hroom.
  fold folded in Hlen. lia.
Qed.

Lemma updateCronHistory_within_limit_witness :
  let s := mkSt Demo.roomyWorld Demo.roomyCron in
  storedWorkloads (snd (updateCronHistory [Demo.job60] s)) = storedWorkloads s ∧
  w_events (world (snd (updateCronHistory [Demo.job60] s)))
  = w_events (world s) ∧
  Active (Status (self (snd (updateCronHistory [Demo.job60] s))))
  = Active (Status (self s)).
Proof.
  apply (updateCronHistory_within_limit [Demo.job60]
           (mkSt Demo.roomyWorld Demo.roomyCron)).
  - apply Forall_singleton. simpl. eauto.
  - intros n [= <-]. simpl. lia.
Defined.

(** ** Listing the active workloads *)

Lemma listActiveLoop_found (cron : Cron) (active : list ObjectReference)
    (acc : list Workload) (s : St) (ws : list Workload) :
  fst (listActiveLoop cron active acc s) = Ok ws →
  ∃ found, ws = acc ++ found ∧ (length found ≤ length active)%nat ∧
    ∀ o, o ∈ found →
      ∃ ref, ref ∈ active ∧
             storedWorkloads s !! (refNamespace ref, refName ref) = Some o.
Proof.
  revert acc. induction active as [|ref rest IH]; intros acc; simpl.
  { intros [= <-]. exists []. rewrite app_nil_r. split_and!; [done..|].
    intros o Ho. by apply elem_of_nil in Ho. }
  assert (Hskip : fst (listActiveLoop cron rest acc s) = Ok ws →
            ∃ found, ws = acc ++ found ∧ (length found ≤ S (length rest))%nat ∧
              ∀ o, o ∈ found →
                ∃ ref0, ref0 ∈ ref :: rest ∧
                  storedWorkloads s !! (refNamespace ref0, refName ref0)
                  = Some o).
  { intros (found & -> & Hlen & Hin)%IH. exists found.
    split_and!; [done|lia|]. intros o Ho.
    destruct (Hin o Ho) as (ref0 & Href0 & Hget). exists ref0.
    split; [by right|done]. }
  destruct (newEmptyWorkload cron); [done|].
  rewrite bind_readWorld. unfold apiGet.
  destruct (w_fault (world s) _) as [e|].
  { destruct (IsNotFound e); [done|]. intros Hfail. discriminate Hfail. }
  destruct (w_workloads (world s) !! _) as [o|] eqn:Hget; simpl; [|done].
  intros (found & -> & Hlen & Hin)%IH. exists (o :: found).
  split_and!; [by rewrite <- app_assoc|simpl; lia|].
  intros o' [->|Ho']%elem_of_cons.
  - exists ref. split; [by left|done].
  - destruct (Hin o' Ho') as (ref0 & Href0 & Hget0). exists ref0.
    split; [by right|done].
Qed.

Lemma listActiveLoop_no_fault (cron : Cron) (active : list ObjectReference)
    (acc : list Workload) (s : St) :
  (∀ k, w_fault (world s) (OpGet k) = None) →
  is_Some (tplObject (Template (Spec cron))) →
  listActiveLoop cron active acc s =
    (Ok (acc ++ omap (λ ref, storedWorkloads s
                               !! (refNamespace ref, refName ref)) active), s).
Proof.
  intros Hfault [tpl Htpl]. revert acc.
  induction active as [|ref rest IH]; intros acc; simpl.
  { by rewrite app_nil_r. }
  unfold newEmptyWorkload. rewrite Htpl, bind_readWorld. unfold apiGet.
  rewrite Hfault. unfold storedWorkloads.
  destruct (w_workloads (world s) !! _) as [o|]; simpl; [|apply IH].
  rewrite IH. by rewrite <- app_assoc.
Qed.

(** X10. [listActiveWorkloads] only reads: the state is unchanged whatever
    the outcome.  A list it returns holds no more workloads than there are
    active references, and each one is the stored object found under the
    namespace and name of a recorded reference (the UID is not compared).
    When no Get fails and the template's kind can be built, it returns
    exactly the stored objects behind the references, in their order, a
    reference without a stored object being skipped. *)
Theorem listActiveWorkloads_reads_store (s : St) :
  snd (listActiveWorkloads s) = s ∧
  (∀ ws, fst (listActiveWorkloads s) = Ok ws →
     (length ws ≤ length (Active (Status (self s))))%nat ∧
     ∀ o, o ∈ ws →
       ∃ ref, ref ∈ Active (Status (self s)) ∧
              storedWorkloads s !! (refNamespace ref, refName ref) = Some o) ∧
  ((∀ k, w_fault (world s) (OpGet k) = None) →
   is_Some (tplObject (Template (Spec (self s)))) →
   fst (listActiveWorkloads s)
   = Ok (omap (λ ref, storedWorkloads s !! (refNamespace ref, refName ref))
           (Active (Status (self s))))).
Proof.
  unfold listActiveWorkloads. rewrite bind_getSelf. split_and!.
  - apply (listActiveLoop_stable (self s) (Active (Status (self s))) [] s).
  - intros ws (found & -> & Hlen & Hin)%listActiveLoop_found. done.
  - intros Hfault Htpl. by rewrite listActiveLoop_no_fault.
Qed.

(** ** A trim pass with nothing to trim *)

Lemma observedUIDs_known (workloads : list Workload) (known : gset string)
    (u : string) :
  u ∈ known → u ∈ observedUIDs workloads known.
Proof.
  revert known. induction workloads as [|w rest IH]; intros known Hu; simpl;
    [done|].
  apply IH. set_solver.
Qed.

Lemma observedUIDs_observed (workloads : list Workload) (known : gset string)
    (w : Workload) :
  w ∈ workloads → wUID w ∈ observedUIDs workloads known.
Proof.
  revert known. induction workloads as [|w0 rest IH]; intros known Hw.
  { by apply elem_of_nil in Hw. }
  simpl. apply elem_of_cons in Hw as [->|Hw]; [|by apply IH].
  apply observedUIDs_known. set_solver.
Qed.

Lemma trimObserved_tracked (workloads : list Workload) (known : gset string)
    (s : St) :
  (∀ w, w ∈ workloads →
        snd (IsWorkloadFinished w) = false ∧
        ∃ r, r ∈ Active (Status (self s)) ∧ refUID r = wUID w) →
  trimObserved workloads None known s
  = (Ok (None, observedUIDs workloads known), s).
Proof.
  revert known. induction workloads as [|w rest IH]; intros known Hall; simpl.
  { done. }
  destruct (Hall w) as [Hfin (r & Hr & Huid)]; [by left|].
  rewrite bind_getSelf, Hfin.
  assert (Hfound : existsb (λ r, String.eqb (refUID r) (wUID w))
                     (Active (Status (self s))) = true).
  { apply existsb_exists. exists r. split; [by apply list_elem_of_In|].
    by apply String.eqb_eq. }
  rewrite Hfound. simpl. apply IH. intros w' Hw'. apply Hall. by right.
Qed.

Lemma trimMissing_known (refs : list ObjectReference) (known : gset string)
    (s : St) :
  (∀ r, r ∈ refs → refUID r ∈ known) →
  trimMissing refs None known s = (Ok tt, s).
Proof.
  induction refs as [|r rest IH]; intros Hall; simpl; [done|].
  rewrite decide_True by (apply Hall; by left).
  apply IH. intros r' Hr'. apply Hall. by right.
Qed.

(** X11. When every observed workload is unfinished and tracked, and every
    active reference is to an observed workload (by UID), the trim pass does
    nothing at all: it succeeds without reading the store, recording an
    event or touching the active list. *)
Theorem trim_nothing_to_trim (workloads : list Workload) (s : St) :
  (∀ w, w ∈ workloads →
        snd (IsWorkloadFinished w) = false ∧
        ∃ r, r ∈ Active (Status (self s)) ∧ refUID r = wUID w) →
  (∀ r, r ∈ Active (Status (self s)) →
        ∃ w, w ∈ workloads ∧ wUID w = refUID r) →
  trimFinishedWorkloadsFromActiveList workloads s = (Ok tt, s).
Proof.
  intros Hobserved Hactive. unfold trimFinishedWorkloadsFromActiveList.
  rewrite bind_run, trimObserved_tracked by done. simpl.
  rewrite bind_getSelf. apply trimMissing_known.
  intros r (w & Hw & <-)%Hactive. by apply observedUIDs_observed.
Qed.

Lemma trim_nothing_to_trim_witness :
  trimFinishedWorkloadsFromActiveList [Demo.job60] Demo.firedState
  = (Ok tt, Demo.firedState).
Proof.
  apply (trim_nothing_to_trim [Demo.job60] Demo.firedState).
  - intros w Hw. apply list_elem_of_singleton in Hw. subst w.
    split; [reflexivity|]. exists Demo.ref60.
    split; [by apply list_elem_of_singleton|reflexivity].
  - intros r Hr. apply list_elem_of_singleton in Hr. subst r.
    exists Demo.job60. split; [by apply list_elem_of_singleton|reflexivity].
Defined.

(** ** The workload built for a firing *)

Lemma SetControllerReference_owner (c : Cron) (o w : Workload) :
  SetControllerReference c o = inr w →
  wController w = Some (cronUID c) ∧ wNamespace w = wNamespace o ∧
  wLabels w = wLabels o ∧ wKind w = wKind o ∧ wAPIVersion w = wAPIVersion o ∧
  wUID w = wUID o ∧ wConditions w = wConditions o.
Proof.
  unfold SetControllerReference.
  destruct (wController o) as [owner|] eqn:Howner.
  - destruct (String.eqb_spec owner (cronUID c)) as [->|]; [|done].
    by intros [= <-].
  - by intros [= <-].
Qed.

(** X12. A workload that [newWorkloadFromTemplate] builds is the template's
    object placed in the namespace of the cron, labelled with the name of the
    cron on top of the template's own labels, and controlled by the cron;
    kind, API version, UID and conditions are the template's. *)
Theorem newWorkloadFromTemplate_metadata (LabelCronName : string) (t : Time)
    (s : St) (w : Workload) :
  fst (newWorkloadFromTemplate LabelCronName t s) = Ok w →
  ∃ tpl, tplObject (Template (Spec (self s))) = Some tpl ∧
    wNamespace w = cronNamespace (self s) ∧
    wLabels w = <[LabelCronName := cronName (self s)]> (wLabels tpl) ∧
    wController w = Some (cronUID (self s)) ∧
    wKind w = wKind tpl ∧ wAPIVersion w = wAPIVersion tpl ∧
    wUID w = wUID tpl ∧ wConditions w = wConditions tpl.
Proof.
  unfold newWorkloadFromTemplate. rewrite bind_getSelf. unfold newEmptyWorkload.
  destruct (tplObject _) as [tpl|]; [|done]. intros Hok. exists tpl.
  split; [done|]. revert Hok.
  set (w0 := if decide _ then SetGenerateName "" tpl else tpl).
  assert (Hw0 : wLabels w0 = wLabels tpl ∧ wKind w0 = wKind tpl ∧
                wAPIVersion w0 = wAPIVersion tpl ∧ wUID w0 = wUID tpl ∧
                wConditions w0 = wConditions tpl).
  { unfold w0. by case_decide. }
  destruct Hw0 as (Hl & Hk & Ha & Hu & Hcs). clearbody w0.
  assert (Hend : ∀ (w1 : Workload) (s1 : St),
            wLabels w1 = wLabels tpl → wKind w1 = wKind tpl →
            wAPIVersion w1 = wAPIVersion tpl → wUID w1 = wUID tpl →
            wConditions w1 = wConditions tpl →
            fst (match SetControllerReference (self s)
                         (SetLabels
                            (<[LabelCronName := cronName (self s)]>
                               (wLabels (SetNamespace (cronNamespace (self s)) w1)))
                            (SetNamespace (cronNamespace (self s)) w1))
                 with
                 | inl err => fail err
                 | inr w2 => ret w2
                 end s1) = Ok w →
            wNamespace w = cronNamespace (self s) ∧
            wLabels w = <[LabelCronName := cronName (self s)]> (wLabels tpl) ∧
            wController w = Some (cronUID (self s)) ∧
            wKind w = wKind tpl ∧ wAPIVersion w = wAPIVersion tpl ∧
            wUID w = wUID tpl ∧ wConditions w = wConditions tpl).
  { intros w1 s1 Hl1 Hk1 Ha1 Hu1 Hcs1.
    destruct (SetControllerReference _ _) as [err|w2] eqn:Hset; [done|].
    intros [= ->].
    apply SetControllerReference_owner in Hset
      as (Hc2 & Hn2 & Hl2 & Hk2 & Ha2 & Hu2 & Hcs2).
    simpl in *. split_and!; congruence. }
  case_decide.
  - rewrite bind_ret. by apply Hend.
  - rewrite bind_assoc, bind_Eventf, bind_assoc, bind_modifySelf, bind_ret.
    by apply Hend.
Qed.

Lemma newWorkloadFromTemplate_metadata_witness :
  ∃ tpl, tplObject (Template (Spec Demo.generatedCron)) = Some tpl ∧
    wNamespace Demo.generatedWorkload = cronNamespace Demo.generatedCron ∧
    wLabels Demo.generatedWorkload
    = <[Demo.label := cronName Demo.generatedCron]> (wLabels tpl) ∧
    wController Demo.generatedWorkload = Some (cronUID Demo.generatedCron) ∧
    wKind Demo.generatedWorkload = wKind tpl ∧
    wAPIVersion Demo.generatedWorkload = wAPIVersion tpl ∧
    wUID Demo.generatedWorkload = wUID tpl ∧
    wConditions Demo.generatedWorkload = wConditions tpl.
Proof.
  apply (newWorkloadFromTemplate_metadata Demo.label Demo.minute
           (mkSt Demo.freshWorld Demo.generatedCron) Demo.generatedWorkload).
  vm_compute. reflexivity.
Defined.

(** ** What a firing leaves behind *)

Lemma newWorkloadFromTemplate_frame (LabelCronName : string) (t : Time) :
  stable (λ s, (Status (self s), storedWorkloads s, w_now (world s)))
    (newWorkloadFromTemplate LabelCronName t).
Proof.
  unfold newWorkloadFromTemplate. apply stable_bind; [done|]. intros cron.
  destruct (newEmptyWorkload cron) as [|w]; [done|].
  apply stable_bind.
  - case_decide; [done|].
    apply stable_bind; [by apply stable_Eventf|]. intros _.
    apply stable_bind; [by apply stable_modifySelf|done].
  - intros w'. by destruct (SetControllerReference _ _).
Qed.

Lemma apiCreate_created (o created : Workload) (w w' : World) :
  apiCreate o w = (inr created, w') →
  w_workloads w !! workloadKey created = None ∧
  w_workloads w' = <[workloadKey created := created]> (w_workloads w) ∧
  wCreationTimestamp created = w_now w.
Proof.
  unfold apiCreate. destruct (w_fault w _); [done|].
  destruct (storedName o w) as [name|]; [|done].
  destruct (w_workloads w !! _) eqn:Hfree; [done|].
  by intros [= <- <-].
Qed.

(** X13. A firing that succeeds leaves exactly this: one new object in the
    workload store, under a name that was free, stamped with the clock of
    the store; a reference to that object (with the UID the store gave it)
    appended to the active list; the last-fired time set to the fired time;
    the history untouched; and the in-memory cron persisted.  The hint is
    the time to the next occurrence. *)
Theorem createScheduled_effect (LabelCronName : string) (schedule : Z → Z)
    (now t : Time) (s : St) (h : option Duration) :
  fst (createScheduled LabelCronName schedule now t s) = Ok h →
  ∃ created,
    storedWorkloads s !! workloadKey created = None ∧
    storedWorkloads (snd (createScheduled LabelCronName schedule now t s))
    = <[workloadKey created := created]> (storedWorkloads s) ∧
    wCreationTimestamp created = w_now (world s) ∧
    Status (self (snd (createScheduled LabelCronName schedule now t s)))
    = mkStatus (Active (Status (self s)) ++ [GetReference created])
        (History (Status (self s))) (Some t) ∧
    storedCron (snd (createScheduled LabelCronName schedule now t s))
    = Some (self (snd (createScheduled LabelCronName schedule now t s))) ∧
    h = nextScheduledTimeDuration schedule now.
Proof.
  unfold createScheduled. rewrite bind_run. unfold mapErr.
  pose proof (newWorkloadFromTemplate_frame LabelCronName t s) as Hnew.
  destruct (newWorkloadFromTemplate LabelCronName t s) as [[w| |] sa];
    [|done..]. simpl in Hnew. injection Hnew as Hstatus Hstore Hnow.
  rewrite bind_run. unfold stepWorld.
  destruct (apiCreate w (world sa)) as [[err|created] wb] eqn:Hcreate.
  { rewrite bind_getSelf. by destruct (_ && _). }
  apply apiCreate_created in Hcreate as (Hfree & Hput & Hstamp).
  rewrite bind_Eventf, !bind_modifySelf, bind_run.
  match goal with |- context [statusUpdate ?x] =>
    destruct (statusUpdate_cases x) as [[e ->]|[stored [Hstored ->]]] end;
    [done|].
  simpl. intros [= <-]. exists created.
  unfold storedWorkloads, storedCron in *. simpl.
  rewrite <- Hstore, <- Hnow, <- Hstatus. done.
Qed.

Lemma createScheduled_effect_witness :
  let run := createScheduled Demo.label Demo.everyMinute (Demo.minute + 5)
               Demo.minute (mkSt Demo.freshWorld Demo.freshCron) in
  ∃ created,
    storedWorkloads (mkSt Demo.freshWorld Demo.freshCron)
      !! workloadKey created = None ∧
    storedWorkloads (snd run)
    = <[workloadKey created := created]>
        (storedWorkloads (mkSt Demo.freshWorld Demo.freshCron)) ∧
    wCreationTimestamp created = w_now Demo.freshWorld ∧
    Status (self (snd run))
    = mkStatus (Active (Status Demo.freshCron) ++ [GetReference created])
        (History (Status Demo.freshCron)) (Some Demo.minute) ∧
    storedCron (snd run) = Some (self (snd run)) ∧
    Some (Demo.minute - 5)
    = nextScheduledTimeDuration Demo.everyMinute (Demo.minute + 5).
Proof.
  apply (createScheduled_effect Demo.label Demo.everyMinute (Demo.minute + 5)
           Demo.minute (mkSt Demo.freshWorld Demo.freshCron)
           (Some (Demo.minute - 5))).
  vm_compute. reflexivity.
Defined.

(** ** Forbid while a workload is active *)

Lemma getNextScheduleTime_frame (now : Time) (schedule : Z → Z) :
  stable (λ s, (self s, storedCron s, storedWorkloads s))
    (getNextScheduleTime now schedule).
Proof.
  intros s. rewrite getNextScheduleTime_run.
  by destruct (walkSchedule _ _ _ _ _).
Qed.

(** X14. Under the Forbid policy the scheduling step starts nothing while
    the active list is not empty: whatever is due, it leaves the in-memory
    cron, the stored cron and the workload store as they are. *)
Theorem forbid_starts_nothing_while_active
    (ParseStandard : string → option (Z → Z)) (LabelCronName : string)
    (now : Time) (s : St) :
  ConcurrencyPolicy_ (Spec (self s)) = ConcurrentPolicyForbid →
  Active (Status (self s)) ≠ [] →
  self (snd (scheduleNextIfPossible ParseStandard LabelCronName now s)) = self s ∧
  storedCron (snd (scheduleNextIfPossible ParseStandard LabelCronName now s))
  = storedCron s ∧
  storedWorkloads (snd (scheduleNextIfPossible ParseStandard LabelCronName now s))
  = storedWorkloads s.
Proof.
  intros Hforbid Hactive.
  set (f := λ s : St, (self s, storedCron s, storedWorkloads s)).
  assert (Hf : f (snd (scheduleNextIfPossible ParseStandard LabelCronName now s))
               = f s).
  2:{ unfold f in Hf. by injection Hf as -> -> ->. }
  unfold scheduleNextIfPossible. rewrite bind_getSelf.
  destruct (ParseStandard _) as [schedule|]; [|done].
  rewrite bind_run.
  pose proof (getNextScheduleTime_frame now schedule s) as Hnext.
  destruct (getNextScheduleTime now schedule s) as [[[err|due]| |] s1];
    simpl in Hnext; fold f in Hnext; [done| |done..].
  unfold startScheduled. rewrite bind_getSelf.
  assert (Hself : self s1 = self s) by (unfold f in Hnext; congruence).
  rewrite Hself. destruct due as [t|]; [|done].
  destruct (timeEqual _ _); [done|].
  rewrite decide_True; [done|]. split; [done|].
  destruct (Active (Status (self s))); [done|simpl; lia].
Qed.

Lemma forbid_starts_nothing_while_active_witness :
  let s := mkSt Demo.limitWorld Demo.limitCron in
  self (snd (scheduleNextIfPossible Demo.parse Demo.label (3 * Demo.minute + 5) s))
  = self s ∧
  storedCron (snd (scheduleNextIfPossible Demo.parse Demo.label
                     (3 * Demo.minute + 5) s)) = storedCron s ∧
  storedWorkloads (snd (scheduleNextIfPossible Demo.parse Demo.label
                          (3 * Demo.minute + 5) s)) = storedWorkloads s.
Proof.
  apply (forbid_starts_nothing_while_active Demo.parse Demo.label
           (3 * Demo.minute + 5) (mkSt Demo.limitWorld Demo.limitCron)).
  - reflexivity.
  - discriminate.
Defined.

(** ** Panics *)

Lemma noPanic_bind {A B} (m : M A) (k : A → M B) :
  noPanic m → (∀ a, noPanic (k a)) → noPanic (bind m k).
Proof.
  intros Hm Hk s. rewrite bind_run. specialize (Hm s).
  destruct (m s) as [[a|e|] s']; simpl in *; [apply Hk|done..].
Qed.

Lemma noPanic_ret {A} (a : A) : noPanic (ret a).
Proof. done. Qed.

Lemma noPanic_fail {A} (e : Error) : noPanic (@fail A e).
Proof. done. Qed.

Lemma noPanic_getSelf : noPanic getSelf.
Proof. done. Qed.

Lemma noPanic_readWorld {A} (f : World → A) : noPanic (readWorld f).
Proof. done. Qed.

Lemma noPanic_modifySelf (f : Cron → Cron) : noPanic (modifySelf f).
Proof. done. Qed.

Lemma noPanic_stepWorld {A} (f : World → A * World) : noPanic (stepWorld f).
Proof. intros s. unfold stepWorld. by destruct (f (world s)). Qed.

Lemma noPanic_Eventf ty reason note : noPanic (Eventf ty reason note).
Proof. done. Qed.

Lemma noPanic_mapErr {A} (g : Error → Error) (m : M A) :
  noPanic m → noPanic (mapErr g m).
Proof.
  intros Hm s. unfold mapErr. specialize (Hm s).
  by destruct (m s) as [[a|e|] s'].
Qed.

Create HintDb nopanic.

Ltac no_panic :=
  repeat lazymatch goal with
    | |- noPanic (bind _ _) => apply noPanic_bind; [|intros ?]
    | |- noPanic (mapErr _ _) => apply noPanic_mapErr
    | |- noPanic (ret _) => apply noPanic_ret
    | |- noPanic (fail _) => apply noPanic_fail
    | |- noPanic getSelf => apply noPanic_getSelf
    | |- noPanic (readWorld _) => apply noPanic_readWorld
    | |- noPanic (modifySelf _) => apply noPanic_modifySelf
    | |- noPanic (stepWorld _) => apply noPanic_stepWorld
    | |- noPanic (Eventf _ _ _) => apply noPanic_Eventf
    | |- noPanic _ => solve [auto with nopanic]
    end.

Lemma noPanic_statusUpdate : noPanic statusUpdate.
Proof.
  intros s. by destruct (statusUpdate_cases s) as [[e ->]|[stored [_ ->]]].
Qed.
#[local] Hint Resolve noPanic_statusUpdate : nopanic.

Lemma noPanic_deleteWorkload (ref : ObjectReference) :
  noPanic (deleteWorkload ref).
Proof.
  unfold deleteWorkload. no_panic.
  destruct (newEmptyWorkload _); no_panic.
  match goal with |- noPanic (match ?r with _ => _ end) => destruct r as [err|o] end.
  - destruct (IsNotFound err); no_panic.
  - no_panic.
Qed.
#[local] Hint Resolve noPanic_deleteWorkload : nopanic.

Lemma noPanic_deleteWorkloads (refs : list ObjectReference) :
  noPanic (deleteWorkloads refs).
Proof. induction refs as [|ref rest IH]; simpl; no_panic. Qed.
#[local] Hint Resolve noPanic_deleteWorkloads : nopanic.

Lemma noPanic_listActiveLoop (cron : Cron) (active : list ObjectReference)
    (acc : list Workload) :
  noPanic (listActiveLoop cron active acc).
Proof.
  revert acc. induction active as [|ref rest IH]; intros acc; simpl; no_panic.
  destruct (newEmptyWorkload _); no_panic.
  match goal with |- noPanic (match ?r with _ => _ end) => destruct r as [err|o] end;
    no_panic.
  destruct (IsNotFound err); no_panic.
Qed.
#[local] Hint Resolve noPanic_listActiveLoop : nopanic.

Lemma noPanic_listActiveWorkloads : noPanic listActiveWorkloads.
Proof. unfold listActiveWorkloads. no_panic. Qed.
#[local] Hint Resolve noPanic_listActiveWorkloads : nopanic.

Lemma noPanic_currentCron (latest : option Cron) : noPanic (currentCron latest).
Proof. destruct latest; simpl; no_panic. Qed.
#[local] Hint Resolve noPanic_currentCron : nopanic.

Lemma noPanic_updateCurrent (latest : option Cron) (f : Cron → Cron) :
  noPanic (updateCurrent latest f).
Proof. destruct latest; simpl; no_panic. Qed.
#[local] Hint Resolve noPanic_updateCurrent : nopanic.

Lemma noPanic_trimObserved (workloads : list Workload) (latest : option Cron)
    (known : gset string) :
  noPanic (trimObserved workloads latest known).
Proof.
  revert latest known.
  induction workloads as [|w rest IH]; intros latest known; simpl; no_panic.
  destruct (negb _ && negb _).
  - no_panic.
    match goal with |- noPanic (match ?r with _ => _ end) => destruct r as [err|c] end;
      no_panic.
    destruct (inActiveList _ _); no_panic.
  - destruct (_ && _); no_panic.
Qed.
#[local] Hint Resolve noPanic_trimObserved : nopanic.

Lemma noPanic_trimMissing (refs : list ObjectReference) (latest : option Cron)
    (known : gset string) :
  noPanic (trimMissing refs latest known).
Proof.
  induction refs as [|ref rest IH]; simpl; no_panic.
  case_decide; no_panic.
  destruct (newEmptyWorkload _); no_panic.
  match goal with |- noPanic (match ?r with _ => _ end) => destruct r as [err|o] end;
    no_panic.
  destruct (IsNotFound err); no_panic.
Qed.
#[local] Hint Resolve noPanic_trimMissing : nopanic.

Lemma noPanic_trim (workloads : list Workload) :
  noPanic (trimFinishedWorkloadsFromActiveList workloads).
Proof. unfold trimFinishedWorkloadsFromActiveList. no_panic. Qed.
#[local] Hint Resolve noPanic_trim : nopanic.

Lemma noPanic_newWorkloadFromTemplate (LabelCronName : string) (t : Time) :
  noPanic (newWorkloadFromTemplate LabelCronName t).
Proof.
  unfold newWorkloadFromTemplate. no_panic.
  destruct (newEmptyWorkload _); no_panic.
  - case_decide; no_panic.
  - destruct (SetControllerReference _ _); no_panic.
Qed.
#[local] Hint Resolve noPanic_newWorkloadFromTemplate : nopanic.

Lemma noPanic_getNextScheduleTime (now : Time) (schedule : Z → Z) :
  noPanic (getNextScheduleTime now schedule).
Proof.
  intros s. rewrite getNextScheduleTime_run.
  by destruct (walkSchedule _ _ _ _ _).
Qed.
#[local] Hint Resolve noPanic_getNextScheduleTime : nopanic.

Lemma noPanic_scheduleNextIfPossible
    (ParseStandard : string → option (Z → Z)) (LabelCronName : string)
    (now : Time) :
  noPanic (scheduleNextIfPossible ParseStandard LabelCronName now).
Proof.
  unfold scheduleNextIfPossible. no_panic.
  destruct (ParseStandard _) as [schedule|]; no_panic.
  match goal with |- noPanic (match ?r with _ => _ end) => destruct r as [err|due] end;
    no_panic.
  unfold startScheduled. no_panic.
  destruct due as [t|]; no_panic.
  destruct (timeEqual _ _); no_panic.
  case_decide; no_panic.
  { case_decide; no_panic. }
  unfold createScheduled. no_panic.
  match goal with |- noPanic (match ?r with _ => _ end) => destruct r as [err|o] end;
    no_panic.
  destruct (_ && _); no_panic.
Qed.
#[local] Hint Resolve noPanic_scheduleNextIfPossible : nopanic.

Lemma noPanic_syncCron
    (ParseStandard : string → option (Z → Z)) (LabelCronName : string)
    (workloads : list Workload) :
  noPanic (syncCron ParseStandard LabelCronName workloads).
Proof.
  unfold syncCron. no_panic.
  destruct (bool_decide _); no_panic.
  destruct (bool_decide _); no_panic.
  destruct (Deadline _) as [deadline|]; no_panic.
  destruct (deadline <? _); no_panic.
Qed.

Lemma noPanic_deleteTruncated (toTruncate : list CronHistory) :
  historyGrouped toTruncate → noPanic (deleteTruncated toTruncate).
Proof.
  induction toTruncate as [|h rest IH]; intros Hg; simpl; no_panic.
  apply Forall_cons in Hg as [[g Hg] Hrest].
  unfold truncateRef. rewrite Hg. no_panic.
Qed.

Lemma foldWorkloads_grouped (apiVersion kind : string) (hs : list CronHistory)
    (workloads : list Workload) :
  historyGrouped hs → historyGrouped (foldWorkloads apiVersion kind hs workloads).
Proof.
  unfold foldWorkloads. generalize (indexHistory 0 hs ∅). intros index.
  revert hs. induction workloads as [|w rest IH]; intros hs Hg; simpl; [done|].
  apply IH. unfold foldWorkload, historyGrouped.
  destruct (index !! _) as [idx|].
  - apply Forall_lookup. intros i h.
    destruct (decide (idx = i)) as [->|Hne].
    + rewrite list_lookup_alter_eq.
      destruct (hs !! i) as [old|] eqn:Hi; simpl; [|done].
      intros [= <-]. simpl. by apply (Forall_lookup_1 _ _ _ _ Hg Hi).
    + rewrite list_lookup_alter_ne by done. intros Hi.
      by apply (Forall_lookup_1 _ _ _ _ Hg Hi).
  - apply Forall_app. split; [done|]. apply Forall_singleton. simpl. eauto.
Qed.

Lemma updateCronHistory_safe (workloads : list Workload) (s : St) :
  historyDated (historyOf s) →
  historyGrouped (historyOf s) →
  (∀ n, HistoryLimit (Spec (self s)) = Some n → 0 ≤ n) →
  fst (updateCronHistory workloads s) ≠ Panic.
Proof.
  intros Hd Hg Hlimit. destruct s as [w c].
  rewrite updateCronHistory_run by done.
  set (folded := foldWorkloads _ _ _ _).
  assert (Hsorted : historyGrouped (sortHistory folded)).
  { apply (Permutation_Forall (Permutation_sym (sortHistory_perm folded))).
    by apply foldWorkloads_grouped. }
  unfold truncateHistory. rewrite bind_getSelf. simpl in *.
  destruct (HistoryLimit (Spec c)) as [limit|]; [|apply noPanic_statusUpdate].
  case_decide; [|apply noPanic_statusUpdate].
  rewrite decide_False by (specialize (Hlimit limit eq_refl); lia).
  apply noPanic_bind; [|intros _; no_panic].
  apply noPanic_deleteTruncated. by apply Forall_take.
Qed.

(** X15. [updateCronHistory] does not panic on a history whose entries all
    have a created time and name their API group, under a history limit that
    is not negative (or no limit).  These are the three places where it can
    panic: the key closure reads the created time of every entry, the slice
    of the entries to evict is out of range under a negative limit, and the
    API group of every evicted entry is dereferenced.  The entries the fold
    adds have a created time and name the group of the template, and the
    fold and the sort keep both. *)
Theorem updateCronHistory_no_panic (workloads : list Workload) (s : St) :
  historyDated (historyOf s) →
  historyGrouped (historyOf s) →
  (∀ n, HistoryLimit (Spec (self s)) = Some n → 0 ≤ n) →
  fst (updateCronHistory workloads s) ≠ Panic.
Proof. apply updateCronHistory_safe. Qed.

Lemma updateCronHistory_no_panic_witness :
  fst (updateCronHistory [Demo.job60; Demo.job120]
         (mkSt Demo.roomyWorld Demo.roomyCron)) ≠ Panic.
Proof.
  apply (updateCronHistory_no_panic [Demo.job60; Demo.job120]
           (mkSt Demo.roomyWorld Demo.roomyCron)).
  - apply Forall_singleton. simpl. eauto.
  - apply Forall_singleton. simpl. eauto.
  - intros n [= <-]. lia.
Defined.

(** X16. [updateCronHistory] panics as soon as it has to evict an entry that
    names no API group: when the sorted history exceeds the limit and its
    oldest entry has a nil group, the call panics before anything is deleted
    or persisted. *)
Theorem updateCronHistory_panics (workloads : list Workload) (s : St)
    (limit : Z) (oldest : CronHistory) (rest : list CronHistory) :
  HistoryLimit (Spec (self s)) = Some limit →
  sortHistory
    (foldWorkloads (tplAPIVersion (Template (Spec (self s))))
       (tplKind (Template (Spec (self s)))) (historyOf s) workloads)
  = oldest :: rest →
  limit ≤ Z.of_nat (length rest) →
  APIGroup (hObject oldest) = None →
  fst (updateCronHistory workloads s) = Panic ∧
  storedCron (snd (updateCronHistory workloads s)) = storedCron s ∧
  storedWorkloads (snd (updateCronHistory workloads s)) = storedWorkloads s.
Proof.
  intros Hlimit Hsorted Hlen Hgroup.
  destruct (decide (historyDated (historyOf s))) as [Hd|Hd];
    [|by rewrite updateCronHistory_undated].
  destruct s as [w c].
  rewrite updateCronHistory_run by done.
  unfold historyOf in Hsorted. simpl in *.
  rewrite Hsorted. unfold truncateHistory. rewrite bind_getSelf. simpl.
  rewrite Hlimit. simpl. rewrite decide_True by lia.
  case_decide as Hneg; [done|].
  replace (Z.to_nat (Z.of_nat (S (length rest)) - limit))
    with (S (Z.to_nat (Z.of_nat (length rest) - limit))) by lia.
  simpl. rewrite bind_run, bind_getSelf. unfold truncateRef. simpl.
  by rewrite Hgroup.
Qed.

Lemma updateCronHistory_panics_witness :
  let s := mkSt Demo.ungroupedWorld Demo.ungroupedCron in
  fst (updateCronHistory [] s) = Panic ∧
  storedCron (snd (updateCronHistory [] s)) = storedCron s ∧
  storedWorkloads (snd (updateCronHistory [] s)) = storedWorkloads s.
Proof.
  apply (updateCronHistory_panics []
           (mkSt Demo.ungroupedWorld Demo.ungroupedCron) 1
           Demo.ungrouped [Demo.entry60]).
  - reflexivity.
  - vm_compute. reflexivity.
  - simpl. lia.
  - reflexivity.
Defined.

Lemma apiGetCron_stored (key : string * string) (w : World) (c : Cron) :
  apiGetCron key w = inr c → w_cron w = Some c.
Proof.
  unfold apiGetCron. destruct (w_fault w OpGetCron); [done|].
  destruct (w_cron w) as [c'|]; [|done]. case_decide; [|done].
  by intros [= ->].
Qed.

(** X17. A cycle does not panic on a cron whose stored history entries all
    have a created time and name their API group, and whose history limit
    is not negative (or absent): outside the three places of
    [updateCronHistory] that these conditions make safe, no step of the
    reconciler can panic. *)
Theorem Reconcile_no_panic
    (ParseStandard : string → option (Z → Z)) (LabelCronName : string)
    (req : string * string) (w : World) (c : Cron) :
  w_cron w = Some c →
  historyDated (History (Status c)) →
  historyGrouped (History (Status c)) →
  (∀ n, HistoryLimit (Spec c) = Some n → 0 ≤ n) →
  fst (Reconcile ParseStandard LabelCronName req w) ≠ Panic.
Proof.
  intros Hc Hd Hg Hlimit. unfold Reconcile.
  destruct (apiGetCron req w) as [err|cron] eqn:Hget.
  { by destruct (IsNotFound err). }
  apply apiGetCron_stored in Hget. rewrite Hc in Hget. injection Hget as <-.
  assert (Hrun : fst (reconcileLoaded ParseStandard LabelCronName (mkSt w c))
                 ≠ Panic).
  2:{ by destruct (reconcileLoaded _ _ _). }
  unfold reconcileLoaded. rewrite bind_run.
  pose proof (noPanic_listActiveWorkloads (mkSt w c)) as Hlist.
  pose proof (listActiveLoop_stable c (Active (Status c)) [] (mkSt w c))
    as Hsame.
  unfold listActiveWorkloads in *. rewrite bind_getSelf in *. simpl in *.
  destruct (listActiveLoop _ _ _ _) as [[actives|e|] s1]; simpl in *;
    [|done..].
  subst s1. rewrite bind_run.
  pose proof (updateCronHistory_safe actives (mkSt w c) Hd Hg Hlimit)
    as Hupdate.
  destruct (updateCronHistory actives _) as [[[]|e|] s2]; simpl in *;
    [|done..].
  apply noPanic_syncCron.
Qed.

Lemma Reconcile_no_panic_witness :
  fst (Reconcile Demo.parse Demo.label Demo.req Demo.roomyWorld) ≠ Panic.
Proof.
  apply (Reconcile_no_panic Demo.parse Demo.label Demo.req Demo.roomyWorld
           Demo.roomyCron).
  - reflexivity.
  - apply Forall_singleton. simpl. eauto.
  - apply Forall_singleton. simpl. eauto.
  - intros n [= <-]. lia.
Defined.

(** ** Deleting by name *)

(** X18. [deleteWorkload] deletes by name: when the store holds an object
    under the namespace and name of the reference and answers the Get and
    the Delete, that object is removed and the call succeeds, whatever the
    UID of the reference; nothing else leaves the store. *)
Theorem deleteWorkload_by_name (ref : ObjectReference) (s : St) (o : Workload) :
  is_Some (tplObject (Template (Spec (self s)))) →
  w_fault (world s) (OpGet (refNamespace ref, refName ref)) = None →
  w_fault (world s) (OpDelete (refNamespace ref, refName ref)) = None →
  storedWorkloads s !! (refNamespace ref, refName ref) = Some o →
  workloadKey o = (refNamespace ref, refName ref) →
  fst (deleteWorkload ref s) = Ok tt ∧
  storedWorkloads (snd (deleteWorkload ref s))
  = delete (refNamespace ref, refName ref) (storedWorkloads s).
Proof.
  intros [tpl Htpl] Hget Hdel Hstored Hkey. unfold deleteWorkload.
  rewrite bind_getSelf. unfold newEmptyWorkload. rewrite Htpl.
  rewrite bind_readWorld. unfold apiGet. rewrite Hget.
  unfold storedWorkloads in *. rewrite Hstored.
  rewrite bind_modifySelf, bind_run. unfold stepWorld, apiDelete. simpl.
  rewrite Hkey, Hdel, Hstored. done.
Qed.

Lemma deleteWorkload_by_name_witness :
  fst (deleteWorkload Demo.staleRef Demo.firedState) = Ok tt ∧
  storedWorkloads (snd (deleteWorkload Demo.staleRef Demo.firedState))
  = delete (refNamespace Demo.staleRef, refName Demo.staleRef)
      (storedWorkloads Demo.firedState).
Proof.
  apply (deleteWorkload_by_name Demo.staleRef Demo.firedState Demo.job60).
  - eexists. reflexivity.
  - reflexivity.
  - reflexivity.
  - vm_compute. reflexivity.
  - reflexivity.
Defined.

(** ** The trim pass after it has reloaded the cron *)

Lemma trimObserved_rebound (workloads : list Workload) (c : Cron)
    (known : gset string) (s : St) :
  self (snd (trimObserved workloads (Some c) known s)) = self s ∧
  ∀ l seen, fst (trimObserved workloads (Some c) known s) = Ok (l, seen) →
            is_Some l.
Proof.
  revert c known s.
  induction workloads as [|w rest IH]; intros c known s; simpl.
  { split; [done|]. intros l seen [= <- <-]. eauto. }
  rewrite bind_ret. destruct (negb _ && negb _).
  - rewrite bind_readWorld.
    destruct (apiGetCron _ _) as [err|latest].
    { split; [done|]. intros l seen Hfail. discriminate Hfail. }
    destruct (inActiveList _ _); [apply IH|].
    rewrite bind_Eventf.
    match goal with |- context [trimObserved rest (Some c) ?k ?s1] =>
      destruct (IH c k s1) as [Hself Hlatest] end.
    split; [by rewrite Hself|done].
  - destruct (_ && _); [|apply IH].
    rewrite bind_ret, bind_Eventf.
    match goal with |- context [trimObserved rest (Some ?c1) ?k ?s1] =>
      destruct (IH c1 k s1) as [Hself Hlatest] end.
    split; [by rewrite Hself|done].
Qed.

Lemma trimMissing_rebound (refs : list ObjectReference) (c : Cron)
    (known : gset string) :
  stable self (trimMissing refs (Some c) known).
Proof.
  induction refs as [|ref rest IH]; simpl; [done|].
  case_decide; [done|]. apply stable_bind; [done|]. intros cron.
  destruct (newEmptyWorkload cron); [done|].
  apply stable_bind; [done|]. intros [err|o]; [|done].
  apply stable_bind; [|done].
  destruct (IsNotFound err); [|done].
  apply stable_bind; [by apply stable_Eventf|]. intros _.
  apply stable_bind; done.
Qed.

(** X19. Once the trim pass has reloaded the cron (an observed workload
    that is unfinished and not in the in-memory active list, but is in the
    active list of the stored cron), it works on the reloaded copy: the
    caller's cron is not changed by the rest of the pass, so no reference is
    trimmed from it whatever the other workloads are. *)
Theorem trim_after_reload_leaves_cron (w : Workload) (rest : list Workload)
    (s : St) (latest : Cron) :
  existsb (λ r, String.eqb (refUID r) (wUID w)) (Active (Status (self s)))
  = false →
  snd (IsWorkloadFinished w) = false →
  apiGetCron (cronNamespace (self s), cronName (self s)) (world s)
  = inr latest →
  inActiveList (Active (Status latest)) w = true →
  self (snd (trimFinishedWorkloadsFromActiveList (w :: rest) s)) = self s.
Proof.
  intros Hfound Hfin Hget Hin.
  unfold trimFinishedWorkloadsFromActiveList. simpl.
  rewrite bind_assoc, bind_getSelf, Hfound, Hfin. simpl.
  rewrite bind_assoc, bind_readWorld, Hget, Hin.
  rewrite bind_run.
  destruct (trimObserved_rebound rest latest ({[wUID w]} ∪ ∅) s)
    as [Hself Hlatest].
  destruct (trimObserved rest (Some latest) _ s) as [[[l seen]|e|] s1];
    simpl in *; [|done..].
  destruct (Hlatest l seen eq_refl) as [c ->]. simpl.
  rewrite bind_ret. by rewrite trimMissing_rebound.
Qed.

Lemma trim_after_reload_leaves_cron_witness :
  self (snd (trimFinishedWorkloadsFromActiveList [Demo.job60]
               Demo.forgetfulState))
  = self Demo.forgetfulState.
Proof.
  apply (trim_after_reload_leaves_cron Demo.job60 [] Demo.forgetfulState
           Demo.firedCron).
  - reflexivity.
  - reflexivity.
  - vm_compute. reflexivity.
  - reflexivity.
Defined.

(** ** A firing whose status update is refused *)

Lemma newWorkloadFromTemplate_fault (LabelCronName : string) (t : Time) :
  stable (λ s, w_fault (world s)) (newWorkloadFromTemplate LabelCronName t).
Proof.
  unfold newWorkloadFromTemplate. apply stable_bind; [done|]. intros cron.
  destruct (newEmptyWorkload cron) as [|w]; [done|].
  apply stable_bind.
  - case_decide; [done|].
    apply stable_bind; [by apply stable_Eventf|]. intros _.
    apply stable_bind; [by apply stable_modifySelf|done].
  - intros w'. by destruct (SetControllerReference _ _).
Qed.

Lemma apiCreate_w_fault (o : Workload) (w : World) :
  w_fault (snd (apiCreate o w)) = w_fault w.
Proof.
  unfold apiCreate. destruct (w_fault w _) eqn:Hf; [done|].
  destruct (storedName o w); [|done]. by destruct (w_workloads w !! _).
Qed.

Lemma statusUpdate_refused (s : St) (e : Error) :
  w_fault (world s) OpUpdateStatus = Some e → statusUpdate s = (Err e, s).
Proof.
  intros Hfault. destruct s as [w c].
  unfold statusUpdate, bind, getSelf, stepWorld, apiUpdateStatus. simpl in *.
  by rewrite Hfault.
Qed.

(** X20. When the store creates the workload but refuses the status update
    that follows, the firing fails with the error of the update; the new
    workload stays in the store, while the stored cron is unchanged: its
    active list has no reference to the workload and its last-fired time is
    not advanced. *)
Theorem createScheduled_update_refused (LabelCronName : string)
    (schedule : Z → Z) (now t : Time) (s : St) (o created : Workload)
    (e : Error) :
  fst (newWorkloadFromTemplate LabelCronName t s) = Ok o →
  fst (apiCreate o (world (snd (newWorkloadFromTemplate LabelCronName t s))))
  = inr created →
  w_fault (world s) OpUpdateStatus = Some e →
  fst (createScheduled LabelCronName schedule now t s) = Err e ∧
  storedWorkloads (snd (createScheduled LabelCronName schedule now t s))
  = <[workloadKey created := created]> (storedWorkloads s) ∧
  storedWorkloads s !! workloadKey created = None ∧
  storedCron (snd (createScheduled LabelCronName schedule now t s))
  = storedCron s.
Proof.
  intros Hnew Hcreate Hfault.
  pose proof (newWorkloadFromTemplate_frame LabelCronName t s) as Hframe.
  pose proof (newWorkloadFromTemplate_storedCron LabelCronName t s) as Hcron.
  pose proof (newWorkloadFromTemplate_fault LabelCronName t s) as Hfault1.
  unfold createScheduled. rewrite bind_run. unfold mapErr.
  destruct (newWorkloadFromTemplate LabelCronName t s) as [r s1].
  simpl in *. subst r. injection Hframe as _ Hstore _.
  rewrite bind_run. unfold stepWorld.
  pose proof (apiCreate_w_cron o (world s1)) as Hcron2.
  pose proof (apiCreate_w_fault o (world s1)) as Hfault2.
  destruct (apiCreate o (world s1)) as [r w2] eqn:Hrun. simpl in *. subst r.
  apply apiCreate_created in Hrun as (Hfree & Hput & _).
  rewrite bind_Eventf, !bind_modifySelf, bind_run.
  rewrite (statusUpdate_refused _ e)
    by (simpl; rewrite Hfault2, Hfault1; exact Hfault).
  unfold storedWorkloads, storedCron in *. simpl.
  rewrite <- Hstore, <- Hcron, Hcron2. done.
Qed.

Lemma createScheduled_update_refused_witness :
  let run := createScheduled Demo.label Demo.everyMinute (Demo.minute + 5)
               Demo.minute (mkSt Demo.unwritableWorld Demo.freshCron) in
  fst run = Err (ErrOther 2) ∧
  storedWorkloads (snd run)
  = <[workloadKey Demo.firstWorkload := Demo.firstWorkload]>
      (storedWorkloads (mkSt Demo.unwritableWorld Demo.freshCron)) ∧
  storedWorkloads (mkSt Demo.unwritableWorld Demo.freshCron)
    !! workloadKey Demo.firstWorkload = None ∧
  storedCron (snd run)
  = storedCron (mkSt Demo.unwritableWorld Demo.freshCron).
Proof.
  apply (createScheduled_update_refused Demo.label Demo.everyMinute
           (Demo.minute + 5) Demo.minute
           (mkSt Demo.unwritableWorld Demo.freshCron)
           Demo.generatedWorkload Demo.firstWorkload (ErrOther 2)).
  - vm_compute. reflexivity.
  - vm_compute. reflexivity.
  - reflexivity.
Defined.
